(** * Morphological tagger layers: encoder alignment, greedy and beam decoding

    A shallow embedding of [morph_tagger/layers.py].  The learned parts of the
    network (embeddings, GRUs, linear layers, the pretrained contextual model)
    are fields of records standing for the Python objects; the control flow
    around them (alignment of subword vectors to words, the greedy loop, beam
    search, slicing of predicted edit labels) is written out as in the source.

    Scores are kept abstract behind [ScoreArith], so the statements read the
    same for machine floats and for exact rationals; concrete runs use the
    rational instance. *)

From Stdlib Require Import String Ascii List Bool Arith ZArith QArith Qround Lia.
From Stdlib Require Import Sorted.
Import ListNotations.
Local Close Scope Q_scope.

Set Implicit Arguments.

(* ================================================================= *)
(** ** Exceptions and results *)

(** The Python exceptions the modelled code can raise. *)
Inductive exn : Type :=
| IndexError     (* list index out of range *)
| KeyError       (* missing dictionary key *)
| RuntimeError.  (* raised by torch: topk out of range, stack of nothing *)

Inductive result (A : Type) : Type :=
| Ok (a : A)
| Raise (e : exn).

Arguments Ok {A} a.
Arguments Raise {A} e.

Definition bind {A B : Type} (r : result A) (k : A -> result B) : result B :=
  match r with
  | Ok a => k a
  | Raise e => Raise e
  end.

Declare Scope result_scope.
Delimit Scope result_scope with result.
Notation "'let*' x ':=' r 'in' k" :=
  (bind r (fun x => k))
  (at level 10, x pattern, r at level 100, k at level 200) : result_scope.
Local Open Scope result_scope.

(* ================================================================= *)
(** ** Score arithmetic *)

(** The arithmetic the decoders perform on scores: conversion of an integer,
    sum, product, quotient and the strict comparison used by sorting. *)
Class ScoreArith (S : Type) : Type := {
  s_of_Z : Z -> S;
  s_add : S -> S -> S;
  s_mul : S -> S -> S;
  s_div : S -> S -> S;
  s_ltb : S -> S -> bool
}.

#[export] Instance Q_ScoreArith : ScoreArith Q := {
  s_of_Z := inject_Z;
  s_add := Qplus;
  s_mul := Qmult;
  s_div := Qdiv;
  s_ltb := fun x y => negb (Qle_bool y x)
}.

(* ================================================================= *)
(** ** Sorting and top-k *)

Section Sorting.
Context {S : Type} `{ScoreArith S} {A : Type}.
Variable key : A -> S.

(** Insertion keeping [x] in front of everything that is not strictly
    greater: elements with equal keys stay in their first-seen order. *)
Fixpoint insert_desc (x : A) (l : list A) : list A :=
  match l with
  | [] => [x]
  | y :: l' => if s_ltb (key x) (key y) then y :: insert_desc x l' else x :: l
  end.

(** [sorted(l, key=key, reverse=True)]: stable, descending. *)
Definition sorted_desc (l : list A) : list A :=
  fold_right insert_desc [] l.

End Sorting.

Section TopK.
Context {S : Type} `{ScoreArith S}.

(** [enumerate]: positions paired with values. *)
Fixpoint enumerate_from {A : Type} (i : nat) (l : list A) : list (nat * A) :=
  match l with
  | [] => []
  | x :: l' => (i, x) :: enumerate_from (Datatypes.S i) l'
  end.

Definition enumerate {A : Type} (l : list A) : list (nat * A) :=
  enumerate_from 0 l.

(** [tensor.topk(k)] on one row, as the list [zip(indices, values)] of the
    [k] largest entries in descending order; torch raises when [k] exceeds
    the row length.  Equal entries come lowest index first; torch leaves
    their order open and no statement below depends on it. *)
Definition topk (k : nat) (row : list S) : result (list (nat * S)) :=
  if length row <? k then Raise RuntimeError
  else Ok (firstn k (sorted_desc snd (enumerate row))).

(** The index of the largest entry, [row.topk(1)] or [torch.argmax]; there
    is no maximum of an empty row. *)
Definition argmax (row : list S) : result nat :=
  let* top := topk 1 row in
  match top with
  | [] => Raise RuntimeError
  | (ix, _) :: _ => Ok ix
  end.

End TopK.

(* ================================================================= *)
(** ** EncoderRNN *)

Section Encoder.
Variable Vec : Type.

(** The encoder object.  Each field stands for a learned or external part
    that [forward] calls. *)
Record EncoderRNN : Type := {
  (** embedding, dropout and the character GRU over one word's character
      indices: the word's final hidden state *)
  char_gru : list nat -> Vec;
  enc_dropout : Vec -> Vec;
  (** [inputs.word_ids(batch_index=0)] of the tokenized sentence: for each
      subword position the word it belongs to, [None] for special tokens *)
  xlmr_word_ids : list string -> list (option nat);
  (** [outputs.last_hidden_state.squeeze(0)]: one vector per subword *)
  xlmr_last_hidden : list string -> list Vec;
  (** [tensor.mean(dim=0)] over the selected rows *)
  mean_rows : list Vec -> Vec;
  context_proj : Vec -> Vec
}.

(** [[i for i, w_id in enumerate(word_ids) if w_id == word_idx]] *)
Definition subword_indices (word_ids : list (option nat)) (word_idx : nat)
  : list nat :=
  map fst
    (filter (fun iw => match snd iw with
                       | Some w => w =? word_idx
                       | None => false
                       end)
            (enumerate word_ids)).

(** [last_hidden[subword_indices]]: row selection, out of range raises. *)
Fixpoint index_rows (last_hidden : list Vec) (ixs : list nat)
  : result (list Vec) :=
  match ixs with
  | [] => Ok []
  | i :: ixs' =>
      match nth_error last_hidden i with
      | None => Raise IndexError
      | Some v => let* vs := index_rows last_hidden ixs' in Ok (v :: vs)
      end
  end.

(** [torch.stack]: raises on an empty list of tensors. *)
Definition torch_stack (l : list Vec) : result (list Vec) :=
  match l with
  | [] => Raise RuntimeError
  | _ :: _ => Ok l
  end.

Variable self : EncoderRNN.

(** The loop [for word_idx in range(len(sentence_text))], with the list
    [xlmr_embeddings] threaded through. *)
Fixpoint align_loop (word_ids : list (option nat)) (last_hidden : list Vec)
    (word_idxs : list nat) (xlmr_embeddings : list Vec) : result (list Vec) :=
  match word_idxs with
  | [] => Ok xlmr_embeddings
  | word_idx :: rest =>
      match subword_indices word_ids word_idx with
      | [] => align_loop word_ids last_hidden rest xlmr_embeddings
      | i :: ixs =>
          let* rows := index_rows last_hidden (i :: ixs) in
          align_loop word_ids last_hidden rest
            (xlmr_embeddings ++ [mean_rows self rows])
      end
  end.

(** [EncoderRNN.forward(x, sentence_text)]: [x] holds the character indices
    of each word; the result is [(word_embeddings[0], context_embeddings)]. *)
Definition forward (x : list (list nat)) (sentence_text : list string)
  : result (list Vec * list Vec) :=
  let word_embeddings :=
    map (fun w => enc_dropout self (char_gru self w)) x in
  let word_ids := xlmr_word_ids self sentence_text in
  let last_hidden := xlmr_last_hidden self sentence_text in
  let* xlmr_embeddings :=
    align_loop word_ids last_hidden (seq 0 (length sentence_text)) [] in
  let* stacked := torch_stack xlmr_embeddings in
  let context_embeddings :=
    map (fun v => enc_dropout self (context_proj self v)) stacked in
  Ok (word_embeddings, context_embeddings).

(** The test [if subword_indices:] for the word [w]. *)
Definition has_subwords (word_ids : list (option nat)) (w : nat) : bool :=
  match subword_indices word_ids w with
  | [] => false
  | _ :: _ => true
  end.

(** [v] is the mean of the rows of [last_hidden] aligned to the word [w]. *)
Definition word_context (word_ids : list (option nat))
    (last_hidden : list Vec) (w : nat) (v : Vec) : Prop :=
  exists rows,
    index_rows last_hidden (subword_indices word_ids w) = Ok rows /\
    v = mean_rows self rows.

End Encoder.

(* ================================================================= *)
(** ** DecoderRNN *)

Section Decoder.
Context {S : Type} `{ScoreArith S}.
Variables Vec Hidden : Type.

(** The decoder object. *)
Record DecoderRNN : Type := {
  (** the vocabulary dictionary in insertion order: token name to index *)
  vocab : list (string * nat);
  (** [cat([relu(W(context_vector)), word_embedding])] *)
  init_hidden : Vec -> Vec -> Hidden;
  (** embedding of the last token, one GRU step, classifier: the row of
      raw scores and the next hidden state *)
  decoder_step : nat -> Hidden -> list S * Hidden;
  softmax : list S -> list S
}.

(** [{v: k for k, v in vocab.items()}] looked up at [ix]: of two names with
    the same index the later one stays. *)
Fixpoint invert_vocab (items : list (string * nat)) (ix : nat)
  : option string :=
  match items with
  | [] => None
  | (k, v) :: rest =>
      match invert_vocab rest ix with
      | Some k' => Some k'
      | None => if v =? ix then Some k else None
      end
  end.

Variable self : DecoderRNN.

Definition index2token (ix : nat) : result string :=
  match invert_vocab (vocab self) ix with
  | Some k => Ok k
  | None => Raise KeyError
  end.

(** *** Greedy decoding *)

(** The body of [for di in range(max_len)], [fuel] iterations left.
    [rows] are the rows of [scores] written so far. *)
Fixpoint predict_loop (fuel : nat) (predicted_token : nat) (hidden : Hidden)
    (rows : list (list S)) (predictions : list string)
  : result (list (list S) * list string) :=
  match fuel with
  | 0 => Ok (rows, predictions)
  | Datatypes.S fuel' =>
      let (output, hidden') := decoder_step self predicted_token hidden in
      let rows' := rows ++ [output] in
      let* top := topk 1 output in
      match top with
      | [] => Raise RuntimeError
      | (topi, _) :: _ =>
          if topi =? 1 then Ok (rows', predictions)
          else if 2 <? topi then
            let* tok := index2token topi in
            predict_loop fuel' topi hidden' rows' (predictions ++ [tok])
          else predict_loop fuel' topi hidden' rows' predictions
      end
  end.

(** [DecoderRNN.predict]: the written rows of [scores] and [predictions]. *)
Definition predict (word_embedding context_vector : Vec) (max_len : nat)
  : result (list (list S) * list string) :=
  let hidden := init_hidden self context_vector word_embedding in
  predict_loop max_len 2 hidden [] [].




(** *** Beam search *)

Record State : Type := mkState {
  prediction : string;
  score : S;
  normalized_score : S;
  last_output : nat;
  hidden : Hidden
}.

Definition s_of_nat (n : nat) : S := s_of_Z (Z.of_nat n).

(** The ints that [surface_len / prediction_len], an int divided by a
    float, converts to a float: the others round to [2 ** 1024] or beyond and
    the division raises OverflowError. *)
Definition float_range (z : Z) : Prop := (Z.abs z < 2 ^ 1024 - 2 ^ 970)%Z.

(** The body of [for ix, score in zip(indices[0], scores[0])] up to the
    construction of [new_state]. *)
Definition new_state (surface_len : Z) (state : State) (_hidden : Hidden)
    (cand : nat * S) : result State :=
  let (ix, p) := cand in
  let _score := s_mul (score state) p in
  if ix =? 1 then
    let _prediction := prediction state in
    let prediction_len :=
      s_add (s_of_nat (String.length _prediction)) (s_of_Z 1) in
    let _normalized_score :=
      s_mul (s_div _score (s_div (s_add (s_of_Z 5) prediction_len) (s_of_Z 6)))
            (s_div (s_of_Z surface_len) prediction_len) in
    Ok (mkState _prediction _score _normalized_score ix _hidden)
  else
    let* tok := index2token ix in
    let _prediction := String.append (prediction state) tok in
    let _normalized_score :=
      s_div _score
        (s_div (s_add (s_of_Z 5) (s_of_nat (String.length _prediction)))
               (s_of_Z 6)) in
    Ok (mkState _prediction _score _normalized_score ix _hidden).

(** The [for] loop over the candidates of one state: end-of-sequence
    candidates go to [completed_states], the others to [new_states]. *)
Fixpoint expand (surface_len : Z) (state : State) (_hidden : Hidden)
    (cands : list (nat * S)) (new_states completed_states : list State)
  : result (list State * list State) :=
  match cands with
  | [] => Ok (new_states, completed_states)
  | cand :: cands' =>
      let* st := new_state surface_len state _hidden cand in
      if fst cand =? 1
      then expand surface_len state _hidden cands'
             new_states (completed_states ++ [st])
      else expand surface_len state _hidden cands'
             (new_states ++ [st]) completed_states
  end.

(** The inner [while states:] loop, popping from the front. *)
Fixpoint inner_loop (surface_len : Z) (beam_size : nat) (states : list State)
    (new_states completed_states : list State)
  : result (list State * list State) :=
  match states with
  | [] => Ok (new_states, completed_states)
  | state :: states' =>
      if (Z.of_nat (String.length (prediction state)) >=? surface_len + 2)%Z
      then inner_loop surface_len beam_size states' new_states completed_states
      else
        let (scores, _hidden) :=
          decoder_step self (last_output state) (hidden state) in
        let* cands := topk beam_size (softmax self scores) in
        let* (new_states', completed_states') :=
          expand surface_len state _hidden cands new_states completed_states in
        inner_loop surface_len beam_size states' new_states' completed_states'
  end.

(** One pass of the outer loop body: from the active beam and the completed
    set to the next active beam and the grown completed set. *)
Definition outer_body (surface_len : Z) (beam_size : nat)
    (states completed_states : list State)
  : result (list State * list State) :=
  let* (new_states, completed_states') :=
    inner_loop surface_len beam_size states [] completed_states in
  Ok (firstn beam_size (sorted_desc normalized_score new_states),
      completed_states').

(** The outer [while states:] loop.  One unit of [fuel] pays for one pass;
    [None] is a loop still running when the fuel is spent. *)
Fixpoint outer_loop (fuel : nat) (surface_len : Z) (beam_size : nat)
    (states completed_states : list State) : option (result (list State)) :=
  match states with
  | [] => Some (Ok completed_states)
  | _ :: _ =>
      match fuel with
      | 0 => None
      | Datatypes.S fuel' =>
          match outer_body surface_len beam_size states completed_states with
          | Raise e => Some (Raise e)
          | Ok (states', completed_states') =>
              outer_loop fuel' surface_len beam_size states' completed_states'
          end
      end
  end.

Definition initial_state (word_embedding context_vector : Vec) : State :=
  mkState EmptyString (s_of_Z 1) (s_of_Z 1) 2
          (init_hidden self context_vector word_embedding).

(** [DecoderRNN.predict_beam]; [max_len] is accepted and not used, as in
    the source. *)
Definition predict_beam (fuel : nat) (word_embedding context_vector : Vec)
    (surface_len : Z) (beam_size : nat) (max_len : nat)
  : option (result string) :=
  match outer_loop fuel surface_len beam_size
          [initial_state word_embedding context_vector] [] with
  | None => None
  | Some (Raise e) => Some (Raise e)
  | Some (Ok completed_states) =>
      match sorted_desc normalized_score completed_states with
      | [] => Some (Raise IndexError)
      | best :: _ => Some (Ok (prediction best))
      end
  end.

(** The active beam and the completed set after [k] passes of the outer
    loop body, starting from the initial state. *)
Fixpoint generation (k : nat) (word_embedding context_vector : Vec)
    (surface_len : Z) (beam_size : nat) : result (list State * list State) :=
  match k with
  | 0 => Ok ([initial_state word_embedding context_vector], [])
  | Datatypes.S k' =>
      let* (states, completed_states) :=
        generation k' word_embedding context_vector surface_len beam_size in
      outer_body surface_len beam_size states completed_states
  end.

(** A state the inner loop expands rather than drops. *)
Definition open_state (surface_len : Z) (st : State) : Prop :=
  (Z.of_nat (String.length (prediction st)) < surface_len + 2)%Z.

(** [s] continues [st] by the name of one token other than end-of-sequence. *)
Definition extends_by_token (st s : State) : Prop :=
  exists ix tok,
    ix <> 1 /\ index2token ix = Ok tok /\
    prediction s = String.append (prediction st) tok.

(** The decoder's arg-max chain, never stopped: the token and the hidden
    state reached after [i] steps from the token [tok] and the state [h]. *)
Fixpoint greedy_chain (i : nat) (tok : nat) (h : Hidden)
  : result (nat * Hidden) :=
  match i with
  | 0 => Ok (tok, h)
  | Datatypes.S i' =>
      let (output, h') := decoder_step self tok h in
      let* t := argmax output in
      greedy_chain i' t h'
  end.

End Decoder.

Arguments DecoderRNN : clear implicits.
Arguments State : clear implicits.
Arguments prediction {S Hidden} s.
Arguments score {S Hidden} s.
Arguments normalized_score {S Hidden} s.
Arguments last_output {S Hidden} s.
Arguments hidden {S Hidden} s.

(* ================================================================= *)
(** ** TransformerRNN *)

Section Transformer.
Context {S : Type} `{ScoreArith S}.
Variable Vec : Type.

(** [data_utils.inverse_transformation] is imported by the module and lives
    outside of it: the reconstruction of a lemma from a surface word and its
    edit labels is taken as given, exceptions included. *)
Variable inverse_transformation : string -> list string -> result string.

(** The edit-label decoder object. *)
Record TransformerRNN : Type := {
  (** the label dictionary in insertion order: label name to index *)
  t_vocab : list (string * nat);
  (** [W], relu, the four-slot initial hidden state, embedding, dropout,
      the bidirectional GRU and the classifier: for every word and every
      character position a row of label scores *)
  t_outputs : list Vec -> list Vec -> list (list nat) -> list (list (list S));
  (** [Softmax(dim=2)] on one row *)
  t_softmax : list S -> list S
}.

Fixpoint map_result {A B : Type} (f : A -> result B) (l : list A)
  : result (list B) :=
  match l with
  | [] => Ok []
  | a :: l' =>
      let* b := f a in
      let* bs := map_result f l' in
      Ok (b :: bs)
  end.

Variable self : TransformerRNN.

Definition index2transformation (ix : nat) : result string :=
  match invert_vocab (t_vocab self) ix with
  | Some k => Ok k
  | None => Raise KeyError
  end.

(** [self.softmax(outputs)] *)
Definition t_scores (word_embeddings context_vectors : list Vec)
    (x : list (list nat)) : list (list (list S)) :=
  map (map (t_softmax self)) (t_outputs self word_embeddings context_vectors x).

(** The first comprehension of [predict]: the arg-max label name at every
    position of every word. *)
Definition predicted_labels (scores : list (list (list S)))
  : result (list (list string)) :=
  map_result
    (map_result (fun row => let* ix := argmax row in index2transformation ix))
    scores.

(** The second comprehension: each surface word with its labels cut to the
    length of the word; [zip] stops at the shorter list. *)
Definition reconstruct_all (surfaces : list string)
    (predictions : list (list string)) : result (list string) :=
  map_result
    (fun sp => inverse_transformation (fst sp)
                 (firstn (String.length (fst sp)) (snd sp)))
    (combine surfaces predictions).

(** [TransformerRNN.predict] *)
Definition t_predict (word_embeddings context_vectors : list Vec)
    (x : list (list nat)) (surfaces : list string)
  : result (list (list (list S)) * list string) :=
  let scores := t_scores word_embeddings context_vectors x in
  let* predictions := predicted_labels scores in
  let* lemmas := reconstruct_all surfaces predictions in
  Ok (scores, lemmas).

End Transformer.

Arguments TransformerRNN : clear implicits.

(** The lemmas of a result of [t_predict], the scores left aside. *)
Definition lemmas_of {A : Type} (r : result (A * list string))
  : result (list string) :=
  let* (_, lemmas) := r in Ok lemmas.

(* ================================================================= *)
(** ** The scoring rule in the words of the specification *)

Section SpecScore.
Context {S : Type} `{ScoreArith S}.

(** The length-normalised score as the specification words it: the
    effective length is the new sequence length for an ordinary candidate
    and the existing, unextended length for an end-of-sequence candidate. *)
Definition spec_normalized_score (target_len_hint : Z)
    (existing_len new_len : nat) (is_eos : bool) (new_cumulative : S) : S :=
  let effective_length :=
    if is_eos then s_of_nat existing_len else s_of_nat new_len in
  let penalty := s_div (s_add (s_of_Z 5) effective_length) (s_of_Z 6) in
  if is_eos
  then s_mul (s_div new_cumulative penalty)
             (s_div (s_of_Z target_len_hint) effective_length)
  else s_div new_cumulative penalty.

(** The same rule with the effective length the code uses for an
    end-of-sequence candidate: the existing length plus one. *)
Definition code_normalized_score (surface_len : Z)
    (existing_len new_len : nat) (is_eos : bool) (new_cumulative : S) : S :=
  let effective_length :=
    if is_eos then s_add (s_of_nat existing_len) (s_of_Z 1)
    else s_of_nat new_len in
  let penalty := s_div (s_add (s_of_Z 5) effective_length) (s_of_Z 6) in
  if is_eos
  then s_mul (s_div new_cumulative penalty)
             (s_div (s_of_Z surface_len) effective_length)
  else s_div new_cumulative penalty.

End SpecScore.

(** [''.join(l)] *)
Definition join (l : list string) : string :=
  fold_right String.append EmptyString l.

(* ================================================================= *)
(** ** Concrete objects for running the model *)

(** Softmax in base two on integer-valued scores, exact in the rationals:
    the probabilities a decoder has whose raw scores are these integers
    times ln 2. *)
Definition softmax2 (row : list Q) : list Q :=
  let w := map (fun x => Qpower (inject_Z 2) (Qfloor x)) row in
  let total := fold_right Qplus (inject_Z 0) w in
  map (fun y => Qred (Qdiv y total)) w.

Definition qs (l : list Z) : list Q := map inject_Z l.

(** A character vocabulary, a tag vocabulary, and one with a nameless token. *)
Definition char_vocab : list (string * nat) :=
  [("<p>", 0); ("<e>", 1); ("<s>", 2); ("a", 3); ("b", 4)]%string.

Definition tag_vocab : list (string * nat) :=
  [("<p>", 0); ("<e>", 1); ("<s>", 2); ("N", 3); ("SG", 4)]%string.

Definition blank_vocab : list (string * nat) :=
  [("<p>", 0); ("<e>", 1); ("<s>", 2); (EmptyString, 3)]%string.

(** A decoder whose hidden state counts the steps taken and whose scores at
    step [h] are the [h]-th row of [script], [rest] after the script ends. *)
Definition scripted (v : list (string * nat)) (script : list (list Q))
    (rest : list Q) : DecoderRNN Q unit nat :=
  {| vocab := v;
     init_hidden := fun _ _ => 0;
     decoder_step := fun _ h => (nth h script rest, Datatypes.S h);
     softmax := softmax2 |}.

(** Always ranks ['a'] first. *)
Definition always_a : DecoderRNN Q unit nat :=
  scripted char_vocab [] (qs [0; 0; 0; 2; 0]%Z).

(** Ranks ['a'] first once, then end-of-sequence. *)
Definition a_then_eos : DecoderRNN Q unit nat :=
  scripted char_vocab [qs [0; 1; 0; 3; 0]%Z] (qs [0; 3; 0; 1; 0]%Z).


(** Ranks the pad token first once, then end-of-sequence. *)
Definition pad_then_eos : DecoderRNN Q unit nat :=
  scripted char_vocab [qs [3; 1; 0; 0; 0]%Z] (qs [0; 3; 0; 1; 0]%Z).

(** A tag decoder that ranks ['SG'] first once, then end-of-sequence. *)
Definition sg_then_eos : DecoderRNN Q unit nat :=
  scripted tag_vocab [qs [0; 0; 0; 0; 3]%Z] (qs [0; 3; 0; 0; 0]%Z).

(** Always ranks the nameless token first. *)
Definition always_blank : DecoderRNN Q unit nat :=
  scripted blank_vocab [] (qs [0; 0; 0; 2]%Z).

(** An encoder over integer vectors: the contextual model returns the given
    word ids and rows whatever the sentence. *)
Definition toy_encoder (word_ids : list (option nat)) (rows : list Z)
  : EncoderRNN Z :=
  {| char_gru := fun w => Z.of_nat (fold_right Nat.add 0 w);
     enc_dropout := fun v => v;
     xlmr_word_ids := fun _ => word_ids;
     xlmr_last_hidden := fun _ => rows;
     mean_rows := fun vs => (fold_right Z.add 0 vs / Z.of_nat (length vs))%Z;
     context_proj := fun v => (2 * v + 1)%Z |}.

(** The encoder [self] with another contextual model output in place of
    its own. *)
Definition with_last_hidden {Vec : Type} (self : EncoderRNN Vec)
    (last_hidden : list string -> list Vec) : EncoderRNN Vec :=
  {| char_gru := char_gru self;
     enc_dropout := enc_dropout self;
     xlmr_word_ids := xlmr_word_ids self;
     xlmr_last_hidden := last_hidden;
     mean_rows := mean_rows self;
     context_proj := context_proj self |}.

(** A label decoder returning fixed score rows, and a reconstruction that
    keeps a character for ["K"] and drops it for any other label. *)
Definition toy_transformer (outputs : list (list (list Q)))
  : TransformerRNN Q unit :=
  {| t_vocab := [("K", 0); ("D", 1)]%string;
     t_outputs := fun _ _ _ => outputs;
     t_softmax := softmax2 |}.

Fixpoint keep_or_drop (surface : string) (labels : list string) : string :=
  match surface, labels with
  | String c rest, label :: labels' =>
      if String.eqb label "K" then String c (keep_or_drop rest labels')
      else keep_or_drop rest labels'
  | _, _ => EmptyString
  end.

Definition toy_inverse (surface : string) (labels : list string)
  : result string :=
  if length labels <? String.length surface then Raise IndexError
  else Ok (keep_or_drop surface labels).

(* ================================================================= *)
(** * Properties *)

(** ** Results *)

Lemma bind_Ok_inv {A B : Type} (r : result A) (k : A -> result B) (b : B) :
  bind r k = Ok b -> exists a, r = Ok a /\ k a = Ok b.
Proof.
  destruct r as [a|e]; simpl; intros E; [eauto | discriminate].
Qed.

Ltac bind_inv H :=
  let a := fresh "a" in
  let Ha := fresh "Ha" in
  apply bind_Ok_inv in H; destruct H as (a & Ha & H).

(** ** Sorting and top-k *)

Section SortingFacts.
Context {S : Type} `{ScoreArith S} {A : Type}.
Variable key : A -> S.

Lemma insert_desc_In (x y : A) (l : list A) :
  In y (insert_desc key x l) <-> y = x \/ In y l.
Proof.
  induction l as [|z l IH]; simpl.
  - intuition.
  - destruct (s_ltb (key x) (key z)); simpl; rewrite ?IH; intuition.
Qed.

Lemma sorted_desc_In (y : A) (l : list A) :
  In y (sorted_desc key l) <-> In y l.
Proof.
  induction l as [|x l IH]; simpl.
  - tauto.
  - rewrite insert_desc_In, IH. intuition.
Qed.

Lemma insert_desc_length (x : A) (l : list A) :
  length (insert_desc key x l) = Datatypes.S (length l).
Proof.
  induction l as [|z l IH]; simpl; [reflexivity|].
  destruct (s_ltb (key x) (key z)); simpl; congruence.
Qed.

Lemma sorted_desc_length (l : list A) :
  length (sorted_desc key l) = length l.
Proof.
  induction l as [|x l IH]; simpl; [reflexivity|].
  now rewrite insert_desc_length, IH.
Qed.

Lemma sorted_desc_Forall (P : A -> Prop) (l : list A) :
  Forall P l -> Forall P (sorted_desc key l).
Proof.
  rewrite !Forall_forall. intros HP y Hy. apply HP.
  now apply sorted_desc_In.
Qed.

Lemma sorted_desc_single (x : A) : sorted_desc key [x] = [x].
Proof. reflexivity. Qed.

Lemma sorted_desc_nil_inv (l : list A) : sorted_desc key l = [] -> l = [].
Proof.
  intros E. apply length_zero_iff_nil.
  rewrite <- sorted_desc_length, E. reflexivity.
Qed.

End SortingFacts.

Lemma Forall_firstn {A : Type} (P : A -> Prop) (n : nat) (l : list A) :
  Forall P l -> Forall P (firstn n l).
Proof.
  intros HP. rewrite <- (firstn_skipn n l) in HP.
  now apply Forall_app in HP.
Qed.

Section TopKFacts.
Context {S : Type} `{ScoreArith S}.

Lemma enumerate_from_length {A : Type} (i : nat) (l : list A) :
  length (enumerate_from i l) = length l.
Proof.
  revert i; induction l as [|x l IH]; intros i; simpl; [reflexivity|].
  now rewrite IH.
Qed.

(** A successful [topk k] has exactly [k] entries. *)
Lemma topk_length (k : nat) (row : list S) (top : list (nat * S)) :
  topk k row = Ok top -> length top = k.
Proof.
  unfold topk. destruct (length row <? k) eqn:E; [discriminate|].
  intros [= <-]. apply Nat.ltb_ge in E.
  rewrite length_firstn, sorted_desc_length.
  unfold enumerate. rewrite enumerate_from_length. lia.
Qed.

Lemma topk_1_inv (row : list S) (top : list (nat * S)) :
  topk 1 row = Ok top -> exists ix v, top = [(ix, v)].
Proof.
  intros E. apply topk_length in E.
  destruct top as [|[ix v] [|? ?]]; simpl in E; try discriminate.
  eauto.
Qed.

Lemma argmax_Ok_iff (row : list S) (ix : nat) :
  argmax row = Ok ix <-> exists v, topk 1 row = Ok [(ix, v)].
Proof.
  unfold argmax. split.
  - intros E. bind_inv E. destruct (topk_1_inv _ Ha) as (i & v & ->).
    injection E as <-. eauto.
  - intros (v & ->). reflexivity.
Qed.

End TopKFacts.

(* ================================================================= *)
(** ** Beam search: what one pass does to the beam *)

Section BeamFacts.
Context {S : Type} `{ScoreArith S} {Vec Hidden : Type}.
Variable self : DecoderRNN S Vec Hidden.
Variable surface_len : Z.

Lemma new_state_inv (st : State S Hidden) (h : Hidden) (ix : nat) (p : S)
    (s : State S Hidden) :
  new_state self surface_len st h (ix, p) = Ok s ->
  score s = s_mul (score st) p /\ last_output s = ix /\ hidden s = h /\
  ((ix = 1 /\ prediction s = prediction st) \/
   (ix <> 1 /\ exists tok, index2token self ix = Ok tok /\
                 prediction s = String.append (prediction st) tok)).
Proof.
  unfold new_state. destruct (ix =? 1) eqn:E.
  - apply Nat.eqb_eq in E. intros [= <-]. simpl.
    repeat split; auto.
  - apply Nat.eqb_neq in E. intros Hs. bind_inv Hs.
    injection Hs as <-. simpl. repeat split; auto.
    right. split; [exact E|]. exists a. auto.
Qed.

Lemma expand_inv (st : State S Hidden) (h : Hidden) (cands : list (nat * S)) :
  forall ns cs ns' cs',
    expand self surface_len st h cands ns cs = Ok (ns', cs') ->
    exists na ca,
      ns' = ns ++ na /\ cs' = cs ++ ca /\
      Forall (extends_by_token self st) na /\
      Forall (fun s => prediction s = prediction st) ca /\
      length na + length ca = length cands.
Proof.
  induction cands as [|[ix p] cands IH]; intros ns cs ns' cs'; simpl.
  - intros [= <- <-]. exists [], []. rewrite !app_nil_r. auto.
  - intros E. bind_inv E.
    apply new_state_inv in Ha. destruct Ha as (_ & _ & _ & Hp).
    destruct (ix =? 1) eqn:Eix.
    + apply Nat.eqb_eq in Eix.
      destruct Hp as [(_ & Hp)|(Hne & _)]; [|contradiction].
      apply IH in E. destruct E as (na & ca & -> & -> & Hna & Hca & Hlen).
      exists na, (a :: ca). rewrite <- app_assoc. simpl.
      split; [reflexivity|]. split; [reflexivity|]. split; [exact Hna|].
      split; [constructor; assumption | lia].
    + apply Nat.eqb_neq in Eix.
      destruct Hp as [(He & _)|(_ & tok & Htok & Hp)]; [contradiction|].
      apply IH in E. destruct E as (na & ca & -> & -> & Hna & Hca & Hlen).
      exists (a :: na), ca. rewrite <- app_assoc. simpl.
      split; [reflexivity|]. split; [reflexivity|].
      split; [|split; [exact Hca | lia]].
      constructor; [|exact Hna]. exists ix, tok. auto.
Qed.

Lemma inner_loop_inv (beam_size : nat) (states : list (State S Hidden)) :
  forall ns cs ns' cs',
    inner_loop self surface_len beam_size states ns cs = Ok (ns', cs') ->
    exists na ca,
      ns' = ns ++ na /\ cs' = cs ++ ca /\
      Forall (fun s => exists st,
                In st states /\ open_state surface_len st /\ extends_by_token self st s) na /\
      Forall (fun s => exists st,
                In st states /\ open_state surface_len st /\
                prediction s = prediction st) ca.
Proof.
  induction states as [|st states IH]; intros ns cs ns' cs'; simpl.
  - intros [= <- <-]. exists [], []. rewrite !app_nil_r. auto.
  - destruct (Z.of_nat (String.length (prediction st)) >=? surface_len + 2)%Z
      eqn:Elen.
    + intros E. apply IH in E.
      destruct E as (na & ca & -> & -> & Hna & Hca).
      exists na, ca. repeat split; auto.
      * eapply Forall_impl; [|exact Hna].
        intros s (st' & Hin & Ho & He). exists st'. auto.
      * eapply Forall_impl; [|exact Hca].
        intros s (st' & Hin & Ho & He). exists st'. auto.
    + assert (Hopen : open_state surface_len st) by (unfold open_state; lia).
      destruct (decoder_step self (last_output st) (hidden st))
        as [scores h] eqn:Estep.
      intros E. bind_inv E. bind_inv E. destruct a0 as [ns1 cs1].
      apply expand_inv in Ha0.
      destruct Ha0 as (na1 & ca1 & -> & -> & Hna1 & Hca1 & _).
      apply IH in E. destruct E as (na & ca & -> & -> & Hna & Hca).
      exists (na1 ++ na), (ca1 ++ ca). rewrite !app_assoc.
      repeat split; auto.
      * apply Forall_app. split.
        -- eapply Forall_impl; [|exact Hna1].
           intros s He. exists st. auto.
        -- eapply Forall_impl; [|exact Hna].
           intros s (st' & Hin & Ho & He). exists st'. auto.
      * apply Forall_app. split.
        -- eapply Forall_impl; [|exact Hca1].
           intros s He. exists st. auto.
        -- eapply Forall_impl; [|exact Hca].
           intros s (st' & Hin & Ho & He). exists st'. auto.
Qed.

(** One pass of the outer loop: every state of the next beam continues an
    open state of the current beam by one token name, and every state added
    to the completed set carries the prediction of an open state. *)
Lemma outer_body_inv (beam_size : nat) (states cs states' cs'
    : list (State S Hidden)) :
  outer_body self surface_len beam_size states cs = Ok (states', cs') ->
  Forall (fun s => exists st,
            In st states /\ open_state surface_len st /\ extends_by_token self st s) states' /\
  exists ca,
    cs' = cs ++ ca /\
    Forall (fun s => exists st,
              In st states /\ open_state surface_len st /\
              prediction s = prediction st) ca.
Proof.
  unfold outer_body. intros E. bind_inv E. destruct a as [ns cs1].
  injection E as <- <-.
  apply inner_loop_inv in Ha. destruct Ha as (na & ca & -> & -> & Hna & Hca).
  simpl. split; [|eauto].
  apply Forall_firstn. apply sorted_desc_Forall. exact Hna.
Qed.

End BeamFacts.

(* ================================================================= *)
(** ** Strings *)

Lemma append_length (a b : string) :
  String.length (String.append a b) = String.length a + String.length b.
Proof.
  induction a as [|c a IH]; simpl; [reflexivity|]. now rewrite IH.
Qed.

Lemma append_assoc (a b c : string) :
  String.append (String.append a b) c = String.append a (String.append b c).
Proof.
  induction a as [|x a IH]; simpl; [reflexivity|]. now rewrite IH.
Qed.

Lemma append_empty_r (a : string) : String.append a EmptyString = a.
Proof.
  induction a as [|x a IH]; simpl; [reflexivity|]. now rewrite IH.
Qed.

Lemma join_app (l1 l2 : list string) :
  join (l1 ++ l2) = String.append (join l1) (join l2).
Proof.
  induction l1 as [|a l1 IH]; simpl; [reflexivity|].
  now rewrite IH, append_assoc.
Qed.

Lemma join_snoc (l : list string) (tok : string) :
  join (l ++ [tok]) = String.append (join l) tok.
Proof.
  rewrite join_app. simpl. now rewrite append_empty_r.
Qed.

(* ================================================================= *)
(** ** Beam search: the completed set, fuel and termination *)

Section BeamLoop.
Context {S : Type} `{ScoreArith S} {Vec Hidden : Type}.
Variable self : DecoderRNN S Vec Hidden.
Variable surface_len : Z.
Variable beam_size : nat.

(** The completed set only ever receives predictions of open states. *)
Lemma outer_body_completed (states cs states' cs' : list (State S Hidden)) :
  Forall (open_state surface_len) cs ->
  outer_body self surface_len beam_size states cs = Ok (states', cs') ->
  Forall (open_state surface_len) cs'.
Proof.
  intros Hcs E. apply outer_body_inv in E.
  destruct E as (_ & ca & -> & Hca).
  apply Forall_app. split; [exact Hcs|].
  eapply Forall_impl; [|exact Hca].
  intros s (st & _ & Ho & Hp). unfold open_state in *. now rewrite Hp.
Qed.

Lemma outer_loop_completed (fuel : nat) :
  forall states cs cs',
    Forall (open_state surface_len) cs ->
    outer_loop self fuel surface_len beam_size states cs = Some (Ok cs') ->
    Forall (open_state surface_len) cs'.
Proof.
  induction fuel as [|fuel IH]; intros states cs cs' Hcs;
    destruct states as [|st states]; simpl; try discriminate;
    try (intros [= <-]; exact Hcs).
  destruct (outer_body self surface_len beam_size (st :: states) cs)
    as [[states1 cs1]|e] eqn:E; [|discriminate].
  apply IH. eapply outer_body_completed; eassumption.
Qed.

Lemma generation_completed (k : nat) (word_embedding context_vector : Vec) :
  forall states cs,
    generation self k word_embedding context_vector surface_len beam_size
      = Ok (states, cs) ->
    Forall (open_state surface_len) cs.
Proof.
  induction k as [|k IH]; intros states cs; simpl.
  - intros [= <- <-]. constructor.
  - intros E. bind_inv E. destruct a as [states0 cs0].
    eapply outer_body_completed; [|exact E]. eapply IH. exact Ha.
Qed.

(** A run that has ended is not changed by more fuel. *)
Lemma outer_loop_more_fuel (fuel : nat) :
  forall fuel' states cs r,
    fuel <= fuel' ->
    outer_loop self fuel surface_len beam_size states cs = Some r ->
    outer_loop self fuel' surface_len beam_size states cs = Some r.
Proof.
  induction fuel as [|fuel IH]; intros fuel' states cs r Hle;
    destruct states as [|st states]; simpl.
  - destruct fuel'; simpl; auto.
  - discriminate.
  - destruct fuel'; simpl; auto.
  - destruct fuel' as [|fuel']; [lia|]. simpl.
    destruct (outer_body self surface_len beam_size (st :: states) cs)
      as [[states1 cs1]|e]; [|auto].
    apply IH. lia.
Qed.

(** Termination of the outer loop when no token other than end-of-sequence
    has an empty name: a beam whose predictions have at least [k] characters
    is emptied within [surface_len + 2 - k] further passes, plus the pass
    that drops the states at the bound. *)
Lemma outer_loop_terminates :
  (forall ix tok,
      ix <> 1 -> index2token self ix = Ok tok -> 1 <= String.length tok) ->
  forall fuel k states cs,
    Forall (fun s => k <= String.length (prediction s)) states ->
    Z.to_nat (surface_len + 2 - Z.of_nat k) + 1 <= fuel ->
    outer_loop self fuel surface_len beam_size states cs <> None.
Proof.
  intros Htok. induction fuel as [|fuel IH]; intros k states cs Hk Hfuel;
    [lia|].
  destruct states as [|st states]; simpl; [discriminate|].
  destruct (outer_body self surface_len beam_size (st :: states) cs)
    as [[states1 cs1]|e] eqn:E; [|discriminate].
  apply outer_body_inv in E. destruct E as (Hnext & _).
  destruct states1 as [|s1 states1].
  - destruct fuel; discriminate.
  - apply (IH (Datatypes.S k)).
    + eapply Forall_impl; [|exact Hnext].
      intros s (st0 & Hin & _ & ix & tok & Hix & Hname & Hp).
      rewrite Forall_forall in Hk. specialize (Hk _ Hin).
      specialize (Htok _ _ Hix Hname).
      rewrite Hp, append_length. lia.
    + inversion Hnext as [|? ? (st0 & Hin & Ho & _) _]; subst.
      rewrite Forall_forall in Hk. specialize (Hk _ Hin).
      unfold open_state in Ho. lia.
Qed.

End BeamLoop.

(* ================================================================= *)
(** ** Beam search with a single active state *)

Section BeamSingle.
Context {S : Type} `{ScoreArith S} {Vec Hidden : Type}.
Variable self : DecoderRNN S Vec Hidden.
Variable surface_len : Z.

(** A pass over a beam of one open state whose best candidate is not
    end-of-sequence: the next beam is the one continued state. *)
Lemma outer_body_single_token (st s : State S Hidden)
    (cs : list (State S Hidden)) (scores : list S) (h : Hidden)
    (ix : nat) (p : S) :
  open_state surface_len st ->
  decoder_step self (last_output st) (hidden st) = (scores, h) ->
  topk 1 (softmax self scores) = Ok [(ix, p)] ->
  ix <> 1 ->
  new_state self surface_len st h (ix, p) = Ok s ->
  outer_body self surface_len 1 [st] cs = Ok ([s], cs).
Proof.
  unfold open_state, outer_body. intros Ho Estep Etop Hix Enew.
  cbn [inner_loop].
  replace (Z.of_nat (String.length (prediction st)) >=? surface_len + 2)%Z
    with false by (symmetry; rewrite Z.geb_leb; apply Z.leb_gt; lia).
  rewrite Estep, Etop. cbn [bind expand]. rewrite Enew. cbn [bind fst].
  apply Nat.eqb_neq in Hix. rewrite Hix. reflexivity.
Qed.

(** The same pass when the best candidate is end-of-sequence: the beam
    empties and the completed set receives the state. *)
Lemma outer_body_single_eos (st s : State S Hidden)
    (cs : list (State S Hidden)) (scores : list S) (h : Hidden) (p : S) :
  open_state surface_len st ->
  decoder_step self (last_output st) (hidden st) = (scores, h) ->
  topk 1 (softmax self scores) = Ok [(1, p)] ->
  new_state self surface_len st h (1, p) = Ok s ->
  outer_body self surface_len 1 [st] cs = Ok ([], cs ++ [s]).
Proof.
  unfold open_state, outer_body. intros Ho Estep Etop Enew.
  cbn [inner_loop].
  replace (Z.of_nat (String.length (prediction st)) >=? surface_len + 2)%Z
    with false by (symmetry; rewrite Z.geb_leb; apply Z.leb_gt; lia).
  rewrite Estep, Etop. cbn [bind expand]. rewrite Enew. reflexivity.
Qed.

End BeamSingle.

(* ================================================================= *)
(** ** Beam search: the claims about the completed set and termination *)

(** Whatever [predict_beam] returns is the prediction of an open state. *)
Lemma predict_beam_result_open
    {S : Type} `{ScoreArith S} {Vec Hidden : Type}
    (self : DecoderRNN S Vec Hidden) (fuel : nat)
    (word_embedding context_vector : Vec)
    (surface_len : Z) (beam_size max_len : nat) (p : string) :
  predict_beam self fuel word_embedding context_vector surface_len
    beam_size max_len = Some (Ok p) ->
  (Z.of_nat (String.length p) < surface_len + 2)%Z.
Proof.
  unfold predict_beam.
  destruct (outer_loop self fuel surface_len beam_size
              [initial_state self word_embedding context_vector] [])
    as [[cs|e]|] eqn:E; try discriminate.
  apply outer_loop_completed in E; [|constructor].
  destruct (sorted_desc normalized_score cs) as [|best rest] eqn:Es;
    [discriminate|].
  intros [= <-].
  assert (Hin : In best cs).
  { apply (sorted_desc_In normalized_score). rewrite Es. now left. }
  rewrite Forall_forall in E. exact (E _ Hin).
Qed.

(** C4.  Every state that beam search adds to the completed set has a
    prediction of at most [surface_len + 2] characters, after any number of
    passes of the outer loop; so has every string [predict_beam] returns. *)
Theorem predict_beam_length_bound
    {S : Type} `{ScoreArith S} {Vec Hidden : Type}
    (self : DecoderRNN S Vec Hidden) (word_embedding context_vector : Vec)
    (surface_len : Z) (beam_size : nat) :
  (forall k states completed_states,
      generation self k word_embedding context_vector surface_len beam_size
        = Ok (states, completed_states) ->
      Forall (fun s => (Z.of_nat (String.length (prediction s))
                        <= surface_len + 2)%Z) completed_states) /\
  (forall fuel max_len p,
      predict_beam self fuel word_embedding context_vector surface_len
        beam_size max_len = Some (Ok p) ->
      (Z.of_nat (String.length p) <= surface_len + 2)%Z).
Proof.
  split.
  - intros k states cs E. apply generation_completed in E.
    eapply Forall_impl; [|exact E]. unfold open_state. intros s Hs. lia.
  - intros fuel max_len p E. apply predict_beam_result_open in E. lia.
Qed.

(** C6.  When the outer loop ends with an empty completed set,
    [predict_beam] raises (IndexError, from indexing the empty sorted list);
    with a non-empty completed set it returns a prediction. *)
Theorem predict_beam_empty_completed_raises
    {S : Type} `{ScoreArith S} {Vec Hidden : Type}
    (self : DecoderRNN S Vec Hidden) (fuel : nat)
    (word_embedding context_vector : Vec)
    (surface_len : Z) (beam_size max_len : nat)
    (completed_states : list (State S Hidden)) :
  outer_loop self fuel surface_len beam_size
    [initial_state self word_embedding context_vector] []
    = Some (Ok completed_states) ->
  (completed_states = [] ->
   predict_beam self fuel word_embedding context_vector surface_len
     beam_size max_len = Some (Raise IndexError)) /\
  (completed_states <> [] ->
   exists best,
     In best completed_states /\
     predict_beam self fuel word_embedding context_vector surface_len
       beam_size max_len = Some (Ok (prediction best))).
Proof.
  intros E. unfold predict_beam. rewrite E. split.
  - intros ->. reflexivity.
  - intros Hne.
    destruct (sorted_desc normalized_score completed_states)
      as [|best rest] eqn:Es.
    + apply sorted_desc_nil_inv in Es. contradiction.
    + exists best. split; [|reflexivity].
      apply (sorted_desc_In normalized_score). rewrite Es. now left.
Qed.

(** A run in which every state is dropped at the length bound: the decoder
    that always ranks ['a'] first, with [surface_len = 0], ends with an
    empty completed set and [predict_beam] raises. *)
Lemma predict_beam_empty_completed_raises_witness :
  predict_beam always_a 10 tt tt 0 1 50 = Some (Raise IndexError).
Proof.
  refine (proj1 (predict_beam_empty_completed_raises always_a 10 tt tt 0 1 50
                   (completed_states := []) _) eq_refl).
  vm_compute. reflexivity.
Defined.

(** C9.  [predict_beam] does not consult [max_len]: two calls that differ in
    it only return the same. *)
Theorem predict_beam_ignores_max_len
    {S : Type} `{ScoreArith S} {Vec Hidden : Type}
    (self : DecoderRNN S Vec Hidden) (fuel : nat)
    (word_embedding context_vector : Vec)
    (surface_len : Z) (beam_size : nat) (max_len1 max_len2 : nat) :
  predict_beam self fuel word_embedding context_vector surface_len
    beam_size max_len1
  = predict_beam self fuel word_embedding context_vector surface_len
      beam_size max_len2.
Proof. reflexivity. Qed.

(** C10, as amended.  For a vocabulary in which no token other than
    end-of-sequence has an empty name: every active state after [k] passes
    of the outer loop has a prediction of at least [k] characters (exactly
    [k] when all those names are single characters), the beam is empty after
    [surface_len + 3] passes, and [predict_beam] ends within
    [surface_len + 3] passes, with the same result for any larger fuel. *)
Theorem predict_beam_terminates
    {S : Type} `{ScoreArith S} {Vec Hidden : Type}
    (self : DecoderRNN S Vec Hidden) (word_embedding context_vector : Vec)
    (surface_len : Z) (beam_size max_len : nat) :
  (forall ix tok,
      ix <> 1 -> index2token self ix = Ok tok -> 1 <= String.length tok) ->
  (forall k states completed_states,
      generation self k word_embedding context_vector surface_len beam_size
        = Ok (states, completed_states) ->
      Forall (fun s => k <= String.length (prediction s)) states /\
      (Z.to_nat surface_len + 3 <= k -> states = []) /\
      ((forall ix tok,
           ix <> 1 -> index2token self ix = Ok tok ->
           String.length tok = 1) ->
       Forall (fun s => String.length (prediction s) = k) states)) /\
  (exists r,
      forall fuel,
        Z.to_nat surface_len + 3 <= fuel ->
        predict_beam self fuel word_embedding context_vector surface_len
          beam_size max_len = Some r).
Proof.
  intros Htok.
  assert (Hgen : forall (f : nat -> nat -> Prop),
             f 0 0 ->
             (forall k n m, f k n -> (exists ix tok,
                 ix <> 1 /\ index2token self ix = Ok tok /\
                 m = String.length tok) -> f (Datatypes.S k) (n + m)) ->
             forall k states cs,
               generation self k word_embedding context_vector surface_len
                 beam_size = Ok (states, cs) ->
               Forall (fun s => f k (String.length (prediction s))) states).
  { intros f f0 fS. induction k as [|k IH]; intros states cs; simpl.
    - intros [= <- <-]. constructor; [exact f0 | constructor].
    - intros E. bind_inv E. destruct a as [states0 cs0].
      specialize (IH _ _ Ha). apply outer_body_inv in E.
      destruct E as (Hnext & _).
      eapply Forall_impl; [|exact Hnext].
      intros s (st & Hin & _ & ix & tok & Hix & Hname & Hp).
      rewrite Forall_forall in IH. specialize (IH _ Hin).
      rewrite Hp, append_length. eapply fS; eauto. }
  assert (Hge : forall k states cs,
             generation self k word_embedding context_vector surface_len
               beam_size = Ok (states, cs) ->
             Forall (fun s => k <= String.length (prediction s)) states).
  { apply (Hgen (fun k n => k <= n)); [lia|].
    intros k n m Hk (ix & tok & Hix & Hname & ->).
    specialize (Htok _ _ Hix Hname). lia. }
  split.
  - intros k states cs E. split; [eapply Hge; exact E|]. split.
    + intros Hk. destruct k as [|k]; [lia|].
      simpl in E. bind_inv E. destruct a as [states0 cs0].
      specialize (Hge _ _ _ Ha). apply outer_body_inv in E.
      destruct E as (Hnext & _).
      destruct states as [|s states]; [reflexivity|].
      inversion Hnext as [|? ? (st & Hin & Ho & _) _]; subst.
      rewrite Forall_forall in Hge. specialize (Hge _ Hin).
      unfold open_state in Ho. lia.
    + intros Hone. revert E. apply (Hgen (fun k n => n = k)); [lia|].
      intros k0 n m Hk (ix & tok & Hix & Hname & ->).
      rewrite (Hone _ _ Hix Hname). lia.
  - set (fuel0 := Z.to_nat surface_len + 3).
    assert (Hend : outer_loop self fuel0 surface_len beam_size
                     [initial_state self word_embedding context_vector] []
                   <> None).
    { apply outer_loop_terminates with (k := 0).
      - exact Htok.
      - constructor; [simpl; lia | constructor].
      - unfold fuel0. lia. }
    destruct (outer_loop self fuel0 surface_len beam_size
                [initial_state self word_embedding context_vector] [])
      as [r0|] eqn:E0; [|contradiction].
    exists (match r0 with
            | Raise e => Raise e
            | Ok cs =>
                match sorted_desc normalized_score cs with
                | [] => Raise IndexError
                | best :: _ => Ok (prediction best)
                end
            end).
    intros fuel Hfuel. unfold predict_beam.
    assert (E1 := E0).
    eapply outer_loop_more_fuel in E1; [|exact Hfuel]. rewrite E1.
    destruct r0 as [cs|e]; [|reflexivity].
    destruct (sorted_desc normalized_score cs); reflexivity.
Qed.

Lemma char_vocab_names_nonempty (ix : nat) (tok : string) :
  ix <> 1 -> index2token a_then_eos ix = Ok tok -> 1 <= String.length tok.
Proof.
  intros _. unfold index2token. simpl.
  do 5 (destruct ix as [|ix]; [simpl; intros [= <-]; simpl; lia|]).
  simpl. discriminate.
Defined.

(** The bound at the character decoder that emits ['a'] and then ends. *)
Lemma predict_beam_terminates_witness :
  exists r,
    forall fuel,
      Z.to_nat 3 + 3 <= fuel ->
      predict_beam a_then_eos fuel tt tt 3 2 50 = Some r.
Proof.
  exact (proj2 (predict_beam_terminates a_then_eos tt tt 3 2 50
                  char_vocab_names_nonempty)).
Defined.

Lemma always_blank_step (tok h : nat) :
  decoder_step always_blank tok h = (qs [0; 0; 0; 2]%Z, Datatypes.S h).
Proof. simpl. destruct h; reflexivity. Qed.

(** With a nameless token ranked first for ever, the single active state
    never grows and the outer loop never ends. *)
Lemma always_blank_loops (fuel : nat) :
  forall (st : State Q nat) (cs : list (State Q nat)),
    prediction st = EmptyString ->
    outer_loop always_blank fuel 0 1 [st] cs = None.
Proof.
  induction fuel as [|fuel IH]; intros st cs Hst; [reflexivity|].
  cbn [outer_loop].
  assert (Etop : topk 1 (softmax always_blank (qs [0; 0; 0; 2]%Z))
                 = Ok [(3, (4 # 7)%Q)]) by (vm_compute; reflexivity).
  assert (Enew : exists s,
             new_state always_blank 0 st (Datatypes.S (hidden st))
               (3, (4 # 7)%Q) = Ok s /\ prediction s = EmptyString).
  { eexists. split; [reflexivity|]. simpl. rewrite Hst. reflexivity. }
  destruct Enew as (s & Enew & Hs).
  assert (Ho : open_state 0 st).
  { unfold open_state. rewrite Hst. simpl. lia. }
  assert (Hne : 3 <> 1) by discriminate.
  rewrite (outer_body_single_token always_blank cs Ho
             (always_blank_step _ _) Etop Hne Enew).
  apply IH. exact Hs.
Qed.

(** C10 fails as stated.  A tag decoder's active state after one pass has
    the two characters of the tag ['SG'], not one; and with a vocabulary
    that holds a nameless token, ranked first at every step,
    [predict_beam] does not end however much fuel it is given. *)
Lemma predict_beam_terminates_counterexample :
  (exists states cs s,
      generation sg_then_eos 1 tt tt 3 1 = Ok (states, cs) /\
      In s states /\ String.length (prediction s) <> 1) /\
  (forall fuel, predict_beam always_blank fuel tt tt 0 1 50 = None).
Proof.
  split.
  - eexists. eexists. eexists. split; [vm_compute; reflexivity|].
    split; [left; reflexivity|]. simpl. discriminate.
  - intros fuel. unfold predict_beam.
    rewrite always_blank_loops; reflexivity.
Qed.


(* ================================================================= *)
(** ** Beam search: the score of an expansion *)

Lemma new_state_score
    {S : Type} `{ScoreArith S} {Vec Hidden : Type}
    (self : DecoderRNN S Vec Hidden) (surface_len : Z)
    (state : State S Hidden) (_hidden : Hidden) (ix : nat) (p : S)
    (s : State S Hidden) :
  new_state self surface_len state _hidden (ix, p) = Ok s ->
  last_output s = ix /\
  score s = s_mul (score state) p /\
  normalized_score s =
    code_normalized_score surface_len
      (String.length (prediction state)) (String.length (prediction s))
      (ix =? 1) (score s).
Proof.
  unfold new_state, code_normalized_score.
  destruct (ix =? 1).
  - intros [= <-]. simpl. repeat split; reflexivity.
  - intros E. bind_inv E. injection E as <-. simpl.
    repeat split; reflexivity.
Qed.

(** C2, as amended.  Every expansion of a state by a candidate multiplies
    the cumulative score by the candidate's probability and divides it by
    the penalty [(5 + effective_length) / 6]; the effective length is the
    length of the new prediction for an ordinary candidate and the length of
    the existing prediction plus one for end-of-sequence, in which case the
    score is also multiplied by [surface_len / effective_length].  The
    states so made go to the completed set when the candidate is
    end-of-sequence and to the next generation's pool otherwise. *)
Theorem expand_normalized_score
    {S : Type} `{ScoreArith S} {Vec Hidden : Type}
    (self : DecoderRNN S Vec Hidden) (surface_len : Z)
    (state : State S Hidden) (_hidden : Hidden) (cands : list (nat * S))
    (new_states completed_states new_states' completed_states'
     : list (State S Hidden)) :
  expand self surface_len state _hidden cands new_states completed_states
    = Ok (new_states', completed_states') ->
  exists made,
    Forall2 (fun cand (s : State S Hidden) =>
               last_output s = fst cand /\
               score s = s_mul (score state) (snd cand) /\
               normalized_score s =
                 code_normalized_score surface_len
                   (String.length (prediction state))
                   (String.length (prediction s))
                   (fst cand =? 1) (score s))
            cands made /\
    new_states'
      = new_states ++ filter (fun s => negb (last_output s =? 1)) made /\
    completed_states'
      = completed_states ++ filter (fun s => last_output s =? 1) made.
Proof.
  revert new_states completed_states.
  induction cands as [|[ix p] cands IH]; intros ns cs E; simpl in E.
  - injection E as <- <-. exists []. rewrite !app_nil_r.
    split; [constructor | split; reflexivity].
  - bind_inv E. rename a into s.
    destruct (new_state_score _ _ _ _ _ _ Ha) as (Hlast & Hscore & Hnorm).
    simpl in E. destruct (ix =? 1) eqn:Eix; apply IH in E;
      destruct E as (made & Hmade & -> & ->);
      exists (s :: made); simpl; rewrite Hlast, Eix; simpl;
      rewrite <- ?app_assoc; simpl;
      (split; [constructor; [simpl; rewrite Eix; auto | exact Hmade]
              | split; reflexivity]).
Qed.

(** The first expansion of the decoder that emits ['a'] and then ends, with
    its two best candidates: ['a'] of probability 8/13 and end-of-sequence
    of probability 2/13. *)
Lemma expand_normalized_score_witness :
  exists made,
    Forall2 (fun cand (s : State Q nat) =>
               last_output s = fst cand /\
               score s = s_mul (score (initial_state a_then_eos tt tt))
                               (snd cand) /\
               normalized_score s =
                 code_normalized_score 3
                   (String.length
                      (prediction (initial_state a_then_eos tt tt)))
                   (String.length (prediction s))
                   (fst cand =? 1) (score s))
            [(3, (8 # 13)%Q); (1, (2 # 13)%Q)] made /\
    length made = 2.
Proof.
  destruct (@expand_normalized_score _ _ _ _ a_then_eos 3
              (initial_state a_then_eos tt tt) 1
              [(3, (8 # 13)%Q); (1, (2 # 13)%Q)] [] [] _ _ eq_refl)
    as (made & Hmade & _ & _).
  exists made. split; [exact Hmade|].
  symmetry. exact (Forall2_length Hmade).
Defined.

(** C2 fails as stated: for an end-of-sequence candidate the code does not
    take the existing length as the effective length.  The decoder that
    emits ['a'] and then ends, with [surface_len = 3]: the state completed
    in the second pass holds ["a"], so the existing length is 1; its score
    is 576/1183, from the effective length 2, where the rule in the
    specification's words gives 192/169. *)
Lemma expand_normalized_score_counterexample :
  exists s,
    generation a_then_eos 2 tt tt 3 1 = Ok ([], [s]) /\
    prediction s = "a"%string /\
    last_output s = 1 /\
    (normalized_score s == 576 # 1183)%Q /\
    (spec_normalized_score 3 1 (String.length (prediction s)) true (score s)
     == 192 # 169)%Q /\
    ~ (normalized_score s ==
       spec_normalized_score 3 1 (String.length (prediction s)) true
         (score s))%Q.
Proof.
  eexists. split; [vm_compute; reflexivity|].
  split; [reflexivity|]. split; [reflexivity|].
  split; [vm_compute; reflexivity|].
  split; [vm_compute; reflexivity|].
  vm_compute. discriminate.
Qed.

(* ================================================================= *)
(** ** Greedy decoding against beam search of width one *)

Section GreedyBeam.
Context {S : Type} `{ScoreArith S} {Vec Hidden : Type}.
Variable self : DecoderRNN S Vec Hidden.

(** The greedy loop only appends: at most one row per iteration. *)
Lemma predict_loop_extends (n : nat) :
  forall tok h rows preds rows' preds',
    predict_loop self n tok h rows preds = Ok (rows', preds') ->
    exists er ep,
      rows' = rows ++ er /\ preds' = preds ++ ep /\ length er <= n.
Proof.
  induction n as [|n IH]; intros tok h rows preds rows' preds'; simpl.
  - intros [= <- <-]. exists [], []. rewrite !app_nil_r. auto.
  - destruct (decoder_step self tok h) as [output h'].
    intros E. bind_inv E. destruct a as [|[topi v] rest]; [discriminate|].
    destruct (topi =? 1).
    + injection E as <- <-. exists [output], []. rewrite app_nil_r.
      simpl. repeat split; auto. lia.
    + destruct (2 <? topi).
      * bind_inv E. apply IH in E. destruct E as (er & ep & -> & -> & Hl).
        exists (output :: er), (a :: ep). rewrite <- !app_assoc. simpl.
        repeat split; auto. lia.
      * apply IH in E. destruct E as (er & ep & -> & -> & Hl).
        exists (output :: er), ep. rewrite <- !app_assoc. simpl.
        repeat split; auto. lia.
Qed.

Lemma new_state_eos (surface_len : Z) (st : State S Hidden) (h : Hidden)
    (p : S) :
  exists s,
    new_state self surface_len st h (1, p) = Ok s /\
    prediction s = prediction st.
Proof. eexists. split; reflexivity. Qed.

Lemma new_state_token (surface_len : Z) (st : State S Hidden) (h : Hidden)
    (ix : nat) (p : S) (tok : string) :
  ix <> 1 -> index2token self ix = Ok tok ->
  exists s,
    new_state self surface_len st h (ix, p) = Ok s /\
    prediction s = String.append (prediction st) tok /\
    last_output s = ix /\ hidden s = h.
Proof.
  intros Hix Htok. unfold new_state.
  apply Nat.eqb_neq in Hix. rewrite Hix, Htok. simpl.
  eexists. split; [reflexivity|]. simpl. auto.
Qed.

Lemma snoc_split {A : Type} (o last : A) (er er0 : list A) :
  o :: er = er0 ++ [last] ->
  (er = [] /\ last = o) \/ (exists er1, er = er1 ++ [last]).
Proof.
  destruct er0 as [|a er1]; simpl; intros [= -> ->]; eauto.
Qed.

(** The first iteration of the greedy loop writes the row the decoder
    emits. *)
Lemma predict_loop_first_row (n : nat) (tok : nat) (h : Hidden)
    (rows : list (list S)) (preds : list string)
    (rows' : list (list S)) (preds' : list string) :
  predict_loop self (Datatypes.S n) tok h rows preds = Ok (rows', preds') ->
  exists er1, rows' = rows ++ fst (decoder_step self tok h) :: er1.
Proof.
  simpl. destruct (decoder_step self tok h) as [output h']. simpl.
  intros E. bind_inv E. destruct a as [|[topi v] rest]; [discriminate|].
  assert (Hnext : forall preds0,
             predict_loop self n topi h' (rows ++ [output]) preds0
               = Ok (rows', preds') ->
             exists er1, rows' = rows ++ output :: er1).
  { intros preds0 E0.
    destruct (predict_loop_extends _ _ _ _ _ E0) as (er & _ & -> & _ & _).
    exists er. now rewrite <- app_assoc. }
  destruct (topi =? 1).
  - injection E as <- <-. now exists [].
  - destruct (2 <? topi); [bind_inv E|]; eapply Hnext; exact E.
Qed.

(** What beam search needs of a score row to go the way greedy decoding
    went over it: the softmax keeps its arg-max, which is neither pad nor
    start-of-sequence. *)
Let followable (row : list S) : Prop :=
  argmax (softmax self row) = argmax row /\
  argmax row <> Ok 0 /\ argmax row <> Ok 2.

(** Beam search of width one retraces a greedy run that ends on
    end-of-sequence, as long as the prediction stays below the bound; only
    the rows the greedy run wrote matter. *)
Lemma beam1_follows_greedy (surface_len : Z) (n : nat) :
  forall tok h rows preds rows' preds' er st cs,
    predict_loop self n tok h rows preds = Ok (rows', preds') ->
    rows' = rows ++ er ->
    (exists er0 last, er = er0 ++ [last] /\ argmax last = Ok 1) ->
    Forall followable er ->
    last_output st = tok -> hidden st = h -> prediction st = join preds ->
    (Z.of_nat (String.length (join preds')) < surface_len + 2)%Z ->
    forall fuel,
      length er <= fuel ->
      exists s,
        prediction s = join preds' /\
        outer_loop self fuel surface_len 1 [st] cs = Some (Ok (cs ++ [s])).
Proof.
  induction n as [|n IH];
    intros tok h rows preds rows' preds' er st cs Eloop Hrows Hstop Hok
           Htok Hh Hpred Hbound fuel Hfuel.
  - simpl in Eloop. injection Eloop as <- <-.
    destruct Hstop as (er0 & last & -> & _).
    apply (f_equal (@length _)) in Hrows. rewrite !length_app in Hrows.
    simpl in Hrows. lia.
  - destruct (predict_loop_first_row _ _ _ _ _ Eloop) as (er1 & Hfirst).
    simpl in Eloop.
    destruct (decoder_step self tok h) as [output h'] eqn:Estep.
    simpl in Hfirst. rewrite Hrows in Hfirst.
    apply app_inv_head in Hfirst. subst er.
    apply Forall_cons_iff in Hok. destruct Hok as ((Hsm & H0 & H2) & Hok1).
    bind_inv Eloop. destruct (topk_1_inv _ Ha) as (topi & v & ->).
    assert (Harg : argmax output = Ok topi).
    { apply argmax_Ok_iff. eauto. }
    rewrite Harg in Hsm, H0, H2.
    apply argmax_Ok_iff in Hsm. destruct Hsm as (p & Etop).
    assert (Estep' : decoder_step self (last_output st) (hidden st)
                     = (output, h')) by (rewrite Htok, Hh; exact Estep).
    simpl in Hfuel. destruct fuel as [|fuel]; [lia|].
    destruct (topi =? 1) eqn:E1.
    + apply Nat.eqb_eq in E1. subst topi.
      injection Eloop as <- <-.
      destruct (new_state_eos surface_len st h' p) as (s & Enew & Hs).
      exists s. split; [congruence|].
      assert (Hopen : open_state surface_len st).
      { unfold open_state. rewrite Hpred. exact Hbound. }
      cbn [outer_loop].
      rewrite (outer_body_single_eos cs Hopen Estep' Etop Enew).
      destruct fuel; reflexivity.
    + apply Nat.eqb_neq in E1.
      assert (Hstop1 : exists er0 last,
                 er1 = er0 ++ [last] /\ argmax last = Ok 1).
      { destruct Hstop as (er0 & last & Esplit & Hlastarg).
        apply snoc_split in Esplit.
        destruct Esplit as [(_ & ->)|(er2 & ->)].
        - rewrite Harg in Hlastarg. injection Hlastarg as ->.
          contradiction.
        - eauto. }
      assert (Hrows1 : rows' = (rows ++ [output]) ++ er1).
      { rewrite Hrows, <- app_assoc. reflexivity. }
      destruct (2 <? topi) eqn:E2.
      * bind_inv Eloop. rename a into name.
        destruct (predict_loop_extends _ _ _ _ _ Eloop)
          as (_ & ep & _ & Hpreds & _).
        assert (Hopen : open_state surface_len st).
        { unfold open_state. rewrite Hpred.
          rewrite Hpreds, !join_app, !append_length in Hbound. lia. }
        destruct (new_state_token surface_len st h' p E1 Ha0)
          as (s1 & Enew & Hs1 & Hlast & Hhid).
        assert (Hpred1 : prediction s1 = join (preds ++ [name])).
        { rewrite Hs1, Hpred, join_snoc. reflexivity. }
        destruct (IH topi h' (rows ++ [output]) (preds ++ [name]) rows'
                    preds' er1 s1 cs Eloop Hrows1 Hstop1 Hok1 Hlast Hhid
                    Hpred1 Hbound fuel)
          as (s & Hs & Eouter); [lia|].
        exists s. split; [exact Hs|].
        cbn [outer_loop].
        rewrite (outer_body_single_token self cs Hopen Estep' Etop E1 Enew).
        exact Eouter.
      * exfalso. apply Nat.ltb_ge in E2.
        assert (topi = 0 \/ topi = 2) as [-> | ->] by lia; contradiction.
Qed.

End GreedyBeam.

(** C3, as amended.  When, on every row of scores that greedy decoding
    wrote, the softmax keeps the arg-max and the arg-max is neither pad nor
    start-of-sequence, greedy decoding ended by emitting end-of-sequence,
    the concatenated greedy tokens stay below [surface_len + 2] characters,
    and [surface_len] is an int that the division by a float of the
    end-of-sequence score accepts, beam search of width one returns the
    concatenation of the tokens greedy decoding returns. *)
Theorem predict_beam_width1_is_greedy
    {S : Type} `{ScoreArith S} {Vec Hidden : Type}
    (self : DecoderRNN S Vec Hidden) (word_embedding context_vector : Vec)
    (surface_len : Z) (max_len max_len' : nat)
    (rows : list (list S)) (last : list S) (predictions : list string) :
  (forall row, In row (rows ++ [last]) ->
               argmax (softmax self row) = argmax row) ->
  (forall row, In row (rows ++ [last]) ->
               argmax row <> Ok 0 /\ argmax row <> Ok 2) ->
  predict self word_embedding context_vector max_len
    = Ok (rows ++ [last], predictions) ->
  argmax last = Ok 1 ->
  (Z.of_nat (String.length (join predictions)) < surface_len + 2)%Z ->
  float_range surface_len ->
  forall fuel,
    length rows + 1 <= fuel ->
    predict_beam self fuel word_embedding context_vector surface_len 1
      max_len' = Some (Ok (join predictions)).
Proof.
  intros Hsm Hnsp Egreedy Hlast Hbound _ fuel Hfuel.
  unfold predict in Egreedy.
  assert (Hex : exists s,
             prediction s = join predictions /\
             outer_loop self fuel surface_len 1
               [initial_state self word_embedding context_vector] []
             = Some (Ok ([] ++ [s]))).
  { eapply beam1_follows_greedy with (rows := []) (preds := [])
                                     (er := rows ++ [last]);
      try eassumption; try reflexivity.
    - exists rows, last. auto.
    - apply Forall_forall. intros row Hrow.
      split; [now apply Hsm | now apply Hnsp].
    - rewrite length_app. simpl. lia. }
  destruct Hex as (s & Hs & Eouter).
  unfold predict_beam. rewrite Eouter. simpl. now rewrite Hs.
Qed.

Lemma a_then_eos_step (tok h : nat) :
  decoder_step a_then_eos tok h
  = (match h with
     | 0 => qs [0; 1; 0; 3; 0]%Z
     | _ => qs [0; 3; 0; 1; 0]%Z
     end, Datatypes.S h).
Proof. simpl. destruct h as [|[|h]]; reflexivity. Defined.

(** The decoder that emits ['a'] and then end-of-sequence: greedy decoding
    returns [["a"]] and beam search of width one returns ["a"]. *)
Lemma predict_beam_width1_is_greedy_witness :
  predict a_then_eos tt tt 5
    = Ok ([qs [0; 1; 0; 3; 0]%Z] ++ [qs [0; 3; 0; 1; 0]%Z], ["a"%string]) /\
  predict_beam a_then_eos 2 tt tt 3 1 5 = Some (Ok (join ["a"%string])).
Proof.
  split; [reflexivity|].
  apply (@predict_beam_width1_is_greedy _ _ _ _ a_then_eos tt tt 3 5 5
           [qs [0; 1; 0; 3; 0]%Z] (qs [0; 3; 0; 1; 0]%Z) ["a"%string]).
  - intros row [<-|[<-|[]]]; vm_compute; reflexivity.
  - intros row [<-|[<-|[]]]; split; intros E; vm_compute in E;
      discriminate E.
  - reflexivity.
  - vm_compute. reflexivity.
  - simpl. lia.
  - vm_compute. reflexivity.
  - simpl. lia.
Defined.

(** C3 fails as stated.  The decoder that always ranks ['a'] first, with
    [max_len = 3] and [surface_len = 0]: greedy decoding returns three
    tokens, beam search of width one never returns them (it drops its state
    at two characters and raises).  The decoder that ranks pad first and
    then end-of-sequence: greedy decoding returns no token, beam search of
    width one returns the name of the pad token. *)
Lemma predict_beam_width1_is_greedy_counterexample :
  (exists rows,
      predict always_a tt tt 3
        = Ok (rows, ["a"%string; "a"%string; "a"%string]) /\
      predict_beam always_a 3 tt tt 0 1 3 = Some (Raise IndexError) /\
      forall fuel,
        predict_beam always_a fuel tt tt 0 1 3
        <> Some (Ok (join ["a"%string; "a"%string; "a"%string]))) /\
  (exists rows,
      predict pad_then_eos tt tt 3 = Ok (rows, []) /\
      predict_beam pad_then_eos 3 tt tt 3 1 3 = Some (Ok "<p>"%string)).
Proof.
  split.
  - eexists. split; [reflexivity|]. split; [vm_compute; reflexivity|].
    intros fuel E.
    apply predict_beam_result_open in E. simpl in E. lia.
  - eexists. split; [reflexivity|]. vm_compute. reflexivity.
Qed.

(* ================================================================= *)
(** ** Greedy decoding *)

Section Greedy.
Context {S : Type} `{ScoreArith S} {Vec Hidden : Type}.
Variable self : DecoderRNN S Vec Hidden.

Lemma greedy_chain_step (i tok topi : nat) (h h' : Hidden)
    (output : list S) :
  decoder_step self tok h = (output, h') ->
  argmax output = Ok topi ->
  greedy_chain self (Datatypes.S i) tok h = greedy_chain self i topi h'.
Proof. intros Estep Harg. simpl. rewrite Estep, Harg. reflexivity. Qed.

(** What the greedy loop returns, in terms of the chain: [toks] are the
    tokens predicted in the iterations that ran. *)
Lemma predict_loop_spec (n : nat) :
  forall tok h rows preds rows' preds',
    predict_loop self n tok h rows preds = Ok (rows', preds') ->
    exists toks names,
      length rows' = length rows + length toks /\
      length toks <= n /\
      (forall i, i < length toks ->
         exists hi, greedy_chain self (Datatypes.S i) tok h
                    = Ok (nth i toks 0, hi)) /\
      (forall i, Datatypes.S i < length toks -> nth i toks 0 <> 1) /\
      (length toks < n -> exists toks0, toks = toks0 ++ [1]) /\
      preds' = preds ++ names /\
      map (index2token self) (filter (fun t => 2 <? t) toks)
      = map Ok names.
Proof.
  induction n as [|n IH]; intros tok h rows preds rows' preds' E.
  - simpl in E. injection E as <- <-. exists [], []. simpl.
    rewrite app_nil_r. repeat split; auto; try lia.
  - simpl in E. destruct (decoder_step self tok h) as [output h'] eqn:Estep.
    bind_inv E. destruct (topk_1_inv _ Ha) as (topi & v & ->).
    assert (Harg : argmax output = Ok topi).
    { apply argmax_Ok_iff. eauto. }
    destruct (topi =? 1) eqn:E1.
    + apply Nat.eqb_eq in E1. subst topi. injection E as <- <-.
      exists [1], []. simpl. rewrite length_app, app_nil_r. simpl.
      repeat split; auto; try lia.
      * intros i Hi. assert (i = 0) as -> by lia.
        exists h'. cbn [greedy_chain]. rewrite ?Estep, Harg. reflexivity.
      * intros _. exists []. reflexivity.
    + apply Nat.eqb_neq in E1.
      assert (Hwrap : forall toks,
                 length rows' = length (rows ++ [output]) + length toks ->
                 length toks <= n ->
                 (forall i, i < length toks ->
                    exists hi, greedy_chain self (Datatypes.S i) topi h'
                               = Ok (nth i toks 0, hi)) ->
                 (forall i, Datatypes.S i < length toks ->
                    nth i toks 0 <> 1) ->
                 (length toks < n -> exists toks0, toks = toks0 ++ [1]) ->
                 length rows' = length rows + length (topi :: toks) /\
                 length (topi :: toks) <= Datatypes.S n /\
                 (forall i, i < length (topi :: toks) ->
                    exists hi, greedy_chain self (Datatypes.S i) tok h
                               = Ok (nth i (topi :: toks) 0, hi)) /\
                 (forall i, Datatypes.S i < length (topi :: toks) ->
                    nth i (topi :: toks) 0 <> 1) /\
                 (length (topi :: toks) < Datatypes.S n ->
                    exists toks0, topi :: toks = toks0 ++ [1])).
      { intros toks Hrows Hlen Hchain Hno Hend.
        rewrite length_app in Hrows. simpl in Hrows. simpl length.
        split; [lia|]. split; [lia|]. split; [|split].
        - intros [|i] Hi.
          + exists h'. cbn [greedy_chain]. rewrite ?Estep, Harg.
            reflexivity.
          + erewrite greedy_chain_step; [|exact Estep|exact Harg].
            apply Hchain. lia.
        - intros [|i] Hi; simpl; [exact E1|]. apply Hno. lia.
        - intros Hlt. destruct Hend as (toks0 & ->); [lia|].
          exists (topi :: toks0). reflexivity. }
      destruct (2 <? topi) eqn:E2.
      * bind_inv E. rename a into name.
        apply IH in E.
        destruct E as (toks & names & Hrows & Hlen & Hchain & Hno & Hend
                       & -> & Hnames).
        exists (topi :: toks), (name :: names).
        destruct (Hwrap toks) as (W1 & W2 & W3 & W4 & W5); auto.
        repeat split; auto.
        -- rewrite <- app_assoc. reflexivity.
        -- simpl. rewrite E2. simpl. rewrite Ha0, Hnames. reflexivity.
      * apply IH in E.
        destruct E as (toks & names & Hrows & Hlen & Hchain & Hno & Hend
                       & -> & Hnames).
        exists (topi :: toks), names.
        destruct (Hwrap toks) as (W1 & W2 & W3 & W4 & W5); auto.
        repeat split; auto.
        simpl. rewrite E2. exact Hnames.
Qed.

End Greedy.



(* ================================================================= *)
(** ** EncoderRNN: alignment of subword vectors to words *)

Section EncoderFacts.
Variable Vec : Type.
Variable self : EncoderRNN Vec.

Lemma enumerate_from_In {A : Type} (l : list A) :
  forall k i a,
    In (i, a) (enumerate_from k l) -> k <= i < k + length l.
Proof.
  induction l as [|b l IH]; intros k i a; simpl; [tauto|].
  intros [[= <- <-]|Hin]; [lia|]. apply IH in Hin. lia.
Qed.

Lemma subword_indices_lt (word_ids : list (option nat)) (w i : nat) :
  In i (subword_indices word_ids w) -> i < length word_ids.
Proof.
  unfold subword_indices, enumerate. intros Hin.
  apply in_map_iff in Hin. destruct Hin as ([j a] & <- & Hin).
  apply filter_In in Hin. destruct Hin as (Hin & _).
  apply enumerate_from_In in Hin. simpl. lia.
Qed.

Lemma index_rows_total (last_hidden : list Vec) (ixs : list nat) :
  (forall i, In i ixs -> i < length last_hidden) ->
  exists rows, index_rows last_hidden ixs = Ok rows.
Proof.
  induction ixs as [|i ixs IH]; intros Hlt; simpl; [eauto|].
  destruct (nth_error last_hidden i) as [v|] eqn:E.
  - destruct IH as (rows & ->); [intros j Hj; apply Hlt; now right|].
    simpl. eauto.
  - apply nth_error_None in E. specialize (Hlt i (or_introl eq_refl)). lia.
Qed.

(** The alignment loop appends, for every word that has subwords and in the
    order of the words, the mean of its rows; words without subwords leave
    no trace. *)
Lemma align_loop_spec (word_ids : list (option nat))
    (last_hidden : list Vec) :
  length word_ids <= length last_hidden ->
  forall ws acc,
    exists add,
      align_loop self word_ids last_hidden ws acc = Ok (acc ++ add) /\
      Forall2 (word_context self word_ids last_hidden)
              (filter (has_subwords word_ids) ws) add.
Proof.
  intros Hlen. induction ws as [|w ws IH]; intros acc;
    cbn [align_loop filter].
  - exists []. rewrite app_nil_r. split; [reflexivity | constructor].
  - unfold has_subwords at 1.
    destruct (subword_indices word_ids w) as [|i ixs] eqn:Esub.
    + apply IH.
    + destruct (index_rows_total last_hidden (i :: ixs)) as (rows & Erows).
      { intros j Hj. rewrite <- Esub in Hj.
        apply subword_indices_lt in Hj. lia. }
      rewrite Erows. cbn [bind].
      destruct (IH (acc ++ [mean_rows self rows])) as (add & -> & Hadd).
      exists (mean_rows self rows :: add). rewrite <- app_assoc.
      split; [reflexivity|]. constructor; [|exact Hadd].
      exists rows. rewrite Esub. auto.
Qed.

(** What [forward] returns when every aligned subword has a row. *)
Lemma forward_spec (x : list (list nat)) (sentence_text : list string) :
  let word_ids := xlmr_word_ids self sentence_text in
  let last_hidden := xlmr_last_hidden self sentence_text in
  let kept :=
    filter (has_subwords word_ids) (seq 0 (length sentence_text)) in
  length word_ids <= length last_hidden ->
  (kept = [] -> forward self x sentence_text = Raise RuntimeError) /\
  (kept <> [] ->
   exists ce,
     forward self x sentence_text
       = Ok (map (fun w => enc_dropout self (char_gru self w)) x, ce) /\
     Forall2 (fun w c =>
                exists v, word_context self word_ids last_hidden w v /\
                          c = enc_dropout self (context_proj self v))
             kept ce).
Proof.
  intros word_ids last_hidden kept Hlen. unfold forward.
  fold word_ids last_hidden.
  destruct (align_loop_spec word_ids last_hidden Hlen
              (seq 0 (length sentence_text)) []) as (add & -> & Hadd).
  fold kept in Hadd. simpl. split.
  - intros Hk. rewrite Hk in Hadd. inversion Hadd; subst. reflexivity.
  - intros Hk. destruct add as [|v add].
    + inversion Hadd as [Hnil|]; subst. congruence.
    + simpl. eexists. split; [reflexivity|].
      change (enc_dropout self (context_proj self v)
              :: map (fun v0 => enc_dropout self (context_proj self v0)) add)
        with (map (fun v0 => enc_dropout self (context_proj self v0))
                  (v :: add)).
      clear Hk. induction Hadd as [|w u ws us Hwu _ IH]; simpl;
        constructor; eauto.
Qed.

Lemma filter_all {A : Type} (f : A -> bool) (l : list A) :
  (forall a, In a l -> f a = true) -> filter f l = l.
Proof.
  induction l as [|a l IH]; intros Hf; simpl; [reflexivity|].
  rewrite (Hf a (or_introl eq_refl)), IH; [reflexivity|].
  intros b Hb. apply Hf. now right.
Qed.

Lemma filter_length_lt {A : Type} (f : A -> bool) (l : list A) (a : A) :
  In a l -> f a = false -> length (filter f l) < length l.
Proof.
  induction l as [|b l IH]; simpl; [tauto|].
  intros [->|Hin] Hfa.
  - rewrite Hfa. pose proof (filter_length_le f l). lia.
  - specialize (IH Hin Hfa). destruct (f b); simpl; lia.
Qed.

Lemma Forall2_seq_nth {B : Type} (R : nat -> B -> Prop) (n : nat) :
  forall a l,
    Forall2 R (seq a n) l ->
    length l = n /\
    forall i, i < n -> exists v, nth_error l i = Some v /\ R (a + i) v.
Proof.
  induction n as [|n IH]; intros a l HF; simpl in HF.
  - inversion HF; subst. split; [reflexivity|]. intros i Hi. lia.
  - inversion HF as [|? v ? l' Hv Hrest]; subst.
    apply IH in Hrest. destruct Hrest as (Hl & Hnth).
    split; [simpl; lia|].
    intros [|i] Hi.
    + exists v. rewrite Nat.add_0_r. auto.
    + destruct (Hnth i) as (u & Hu & HR); [lia|].
      exists u. simpl. split; [exact Hu|].
      now replace (a + Datatypes.S i) with (Datatypes.S a + i) by lia.
Qed.

End EncoderFacts.

(** C1, as amended.  For a non-empty sentence in which every word has at
    least one aligned subword (and every subword a row of the contextual
    model's output), with as many words in [x] as in the sentence,
    [forward] returns one word vector and one context vector per word, in
    the order of the words: the [i]-th context vector is the projected mean
    of the rows aligned to word [i], wherever those rows are placed. *)
Theorem forward_one_pair_per_word
    {Vec : Type} (self : EncoderRNN Vec)
    (x : list (list nat)) (sentence_text : list string) :
  let word_ids := xlmr_word_ids self sentence_text in
  let last_hidden := xlmr_last_hidden self sentence_text in
  length x = length sentence_text ->
  0 < length sentence_text ->
  (forall w, w < length sentence_text -> subword_indices word_ids w <> []) ->
  length word_ids <= length last_hidden ->
  exists word_embeddings context_embeddings,
    forward self x sentence_text = Ok (word_embeddings, context_embeddings) /\
    length word_embeddings = length sentence_text /\
    length context_embeddings = length sentence_text /\
    forall i,
      i < length sentence_text ->
      (exists w,
          nth_error x i = Some w /\
          nth_error word_embeddings i
          = Some (enc_dropout self (char_gru self w))) /\
      (exists rows,
          index_rows last_hidden (subword_indices word_ids i) = Ok rows /\
          nth_error context_embeddings i
          = Some (enc_dropout self (context_proj self (mean_rows self rows)))).
Proof.
  intros word_ids last_hidden Hx Hpos Hall Hlen.
  destruct (forward_spec self x sentence_text Hlen) as (_ & Hok).
  fold word_ids last_hidden in Hok.
  assert (Hkept : filter (has_subwords word_ids)
                    (seq 0 (length sentence_text))
                  = seq 0 (length sentence_text)).
  { apply filter_all. intros w Hw. apply in_seq in Hw.
    unfold has_subwords. specialize (Hall w).
    destruct (subword_indices word_ids w); [|reflexivity].
    exfalso. apply Hall; [lia | reflexivity]. }
  rewrite Hkept in Hok.
  destruct Hok as (ce & Efwd & Hce).
  { destruct (length sentence_text); [lia | discriminate]. }
  apply Forall2_seq_nth in Hce. destruct Hce as (Hcelen & Hnth).
  eexists. exists ce. split; [exact Efwd|].
  split; [rewrite length_map; exact Hx|]. split; [exact Hcelen|].
  intros i Hi. split.
  - destruct (nth_error x i) as [w|] eqn:Ew.
    + exists w. split; [reflexivity|].
      rewrite nth_error_map, Ew. reflexivity.
    + apply nth_error_None in Ew. lia.
  - destruct (Hnth i Hi) as (c & Hc & v & (rows & Erows & ->) & ->).
    exists rows. auto.
Qed.

(** Two words whose subwords interleave: word 0 owns row 2, word 1 owns
    rows 1 and 3. *)
Lemma forward_one_pair_per_word_witness :
  exists word_embeddings context_embeddings,
    forward (toy_encoder [None; Some 1; Some 0; Some 1; None]
                         [10; 20; 30; 60; 50]%Z)
            [[1; 2]; [3; 4]] ["ab"; "cd"]%string
    = Ok (word_embeddings, context_embeddings) /\
    length word_embeddings = 2 /\
    length context_embeddings = 2.
Proof.
  destruct (forward_one_pair_per_word
              (toy_encoder [None; Some 1; Some 0; Some 1; None]
                           [10; 20; 30; 60; 50]%Z)
              [[1; 2]; [3; 4]] ["ab"; "cd"]%string)
    as (we & ce & E & Hwe & Hce & _).
  - reflexivity.
  - simpl. lia.
  - simpl. intros [|[|w]] Hw; [discriminate | discriminate | lia].
  - simpl. lia.
  - exists we, ce. auto.
Defined.

(** C1 fails as stated.  A sentence of two words whose first word has no
    aligned subword: [forward] returns two word vectors and one context
    vector, and that one, in the place of word 0, is the vector of word 1. *)
Lemma forward_one_pair_per_word_counterexample :
  forward (toy_encoder [None; Some 1; None] [10; 20; 30]%Z)
          [[1; 2]; [3; 4]] ["ab"; "cd"]%string
  = Ok ([3; 7]%Z, [41]%Z) /\
  length [41]%Z <> length ["ab"; "cd"]%string /\
  index_rows [10; 20; 30]%Z
    (subword_indices [None; Some 1; None] 1) = Ok [20]%Z.
Proof.
  split; [reflexivity|]. split; [discriminate | reflexivity].
Qed.

(** C7, as amended.  A word without aligned subwords raises nothing by
    itself: [forward] leaves the word out and returns one context vector
    for each word that has subwords, in word order, so fewer than the
    sentence has words; it raises (RuntimeError, from stacking nothing)
    only when no word of the sentence has an aligned subword. *)
Theorem forward_omits_unaligned_word
    {Vec : Type} (self : EncoderRNN Vec)
    (x : list (list nat)) (sentence_text : list string) (w : nat) :
  let word_ids := xlmr_word_ids self sentence_text in
  let last_hidden := xlmr_last_hidden self sentence_text in
  let kept :=
    filter (has_subwords word_ids) (seq 0 (length sentence_text)) in
  length word_ids <= length last_hidden ->
  w < length sentence_text ->
  subword_indices word_ids w = [] ->
  (kept = [] -> forward self x sentence_text = Raise RuntimeError) /\
  (kept <> [] ->
   exists word_embeddings context_embeddings,
     forward self x sentence_text = Ok (word_embeddings, context_embeddings) /\
     length context_embeddings = length kept /\
     length context_embeddings < length sentence_text /\
     Forall2 (fun w' c =>
                exists rows,
                  index_rows last_hidden (subword_indices word_ids w')
                    = Ok rows /\
                  c = enc_dropout self
                        (context_proj self (mean_rows self rows)))
             kept context_embeddings).
Proof.
  intros word_ids last_hidden kept Hlen Hw Hsub.
  destruct (forward_spec self x sentence_text Hlen) as (Hnone & Hsome).
  fold word_ids last_hidden in Hnone, Hsome. fold kept in Hnone, Hsome.
  split; [exact Hnone|].
  intros Hk. destruct (Hsome Hk) as (ce & Efwd & Hce).
  eexists. exists ce. split; [exact Efwd|].
  assert (Hcelen : length ce = length kept).
  { symmetry. eapply Forall2_length. exact Hce. }
  split; [exact Hcelen|]. split.
  - rewrite Hcelen. unfold kept.
    assert (Hin : In w (seq 0 (length sentence_text)))
      by (apply in_seq; lia).
    assert (Hf : has_subwords word_ids w = false)
      by (unfold has_subwords; rewrite Hsub; reflexivity).
    pose proof (filter_length_lt (has_subwords word_ids) _ _ Hin Hf) as Hlt.
    rewrite length_seq in Hlt. exact Hlt.
  - eapply Forall2_impl; [|exact Hce].
    intros w' c (v & (rows & Erows & ->) & ->). eauto.
Qed.

(** Two words, the second without subwords: one context vector comes
    back and nothing is raised. *)
Lemma forward_omits_unaligned_word_witness :
  exists word_embeddings context_embeddings,
    forward (toy_encoder [None; Some 0; Some 0; None] [10; 20; 30; 40]%Z)
            [[1; 2]; [3; 4]] ["ab"; "cd"]%string
    = Ok (word_embeddings, context_embeddings) /\
    length context_embeddings = 1.
Proof.
  destruct (@forward_omits_unaligned_word _
              (toy_encoder [None; Some 0; Some 0; None] [10; 20; 30; 40]%Z)
              [[1; 2]; [3; 4]] ["ab"; "cd"]%string 1)
    as (_ & Hsome).
  - simpl. lia.
  - simpl. lia.
  - reflexivity.
  - destruct Hsome as (we & ce & E & Hce & _).
    + discriminate.
    + exists we, ce. split; [exact E | exact Hce].
Defined.

(** C7 fails as stated.  The second word of the sentence has no aligned
    subword and [forward] returns normally, with the context vector of the
    first word only. *)
Lemma forward_omits_unaligned_word_counterexample :
  subword_indices
    (xlmr_word_ids (toy_encoder [None; Some 0; Some 0; None]
                                [10; 20; 30; 40]%Z)
                   ["ab"; "cd"]%string) 1 = [] /\
  forward (toy_encoder [None; Some 0; Some 0; None] [10; 20; 30; 40]%Z)
          [[1; 2]; [3; 4]] ["ab"; "cd"]%string
  = Ok ([3; 7]%Z, [51]%Z).
Proof. split; reflexivity. Qed.

(* ================================================================= *)
(** ** TransformerRNN: the labels that reach the reconstruction *)

Section TransformerFacts.
Variable inverse_transformation : string -> list string -> result string.

(** The reconstruction of a sentence depends on the labels of each word
    through their first [len(surface)] entries only. *)
Lemma reconstruct_all_prefix (surfaces : list string) :
  forall p q : list (list string),
    length p = length q ->
    (forall i surface a b,
        nth_error surfaces i = Some surface ->
        nth_error p i = Some a -> nth_error q i = Some b ->
        firstn (String.length surface) a = firstn (String.length surface) b) ->
    reconstruct_all inverse_transformation surfaces p
    = reconstruct_all inverse_transformation surfaces q.
Proof.
  unfold reconstruct_all.
  induction surfaces as [|surface surfaces IH]; intros p q Hlen Hagree;
    [reflexivity|].
  destruct p as [|a p], q as [|b q]; try discriminate; [reflexivity|].
  cbn [combine map_result fst snd].
  rewrite (Hagree 0 surface a b eq_refl eq_refl eq_refl).
  rewrite (IH p q); [reflexivity | simpl in Hlen; lia |].
  intros i s a' b' Hs Ha Hb. exact (Hagree (Datatypes.S i) s a' b' Hs Ha Hb).
Qed.

(** Each returned lemma is the reconstruction from the surface word and the
    first [len(surface)] labels of the word. *)
Lemma reconstruct_all_nth (surfaces : list string) :
  forall (p : list (list string)) (lemmas : list string),
    reconstruct_all inverse_transformation surfaces p = Ok lemmas ->
    length lemmas = Nat.min (length surfaces) (length p) /\
    forall i surface a,
      nth_error surfaces i = Some surface -> nth_error p i = Some a ->
      exists lemma,
        nth_error lemmas i = Some lemma /\
        inverse_transformation surface (firstn (String.length surface) a)
        = Ok lemma.
Proof.
  unfold reconstruct_all.
  induction surfaces as [|surface surfaces IH]; intros p lemmas E.
  - simpl in E. injection E as <-. split; [reflexivity|].
    intros [|i] s a Hs; discriminate.
  - destruct p as [|a p].
    + simpl in E. injection E as <-. split; [reflexivity|].
      intros [|i] s a' _ Ha; discriminate.
    + cbn [combine map_result fst snd] in E.
      bind_inv E. bind_inv E. injection E as <-.
      rename a0 into lemma0, a1 into rest.
      apply IH in Ha0. destruct Ha0 as (Hlen & Hnth).
      split; [simpl; lia|].
      intros [|i] s a' Hs Hp; simpl in Hs, Hp.
      * injection Hs as <-. injection Hp as <-. exists lemma0. auto.
      * simpl. eauto.
Qed.

End TransformerFacts.

(** C8.  [TransformerRNN.predict] hands to the reconstruction the first
    [len(surface)] labels of each word and nothing else of the labels: each
    returned lemma is the reconstruction from the surface word and those
    labels, and two runs whose predicted labels agree on the first
    [len(surface)] positions of every word return the same lemmas, whatever
    the labels beyond. *)
Theorem t_predict_reads_label_prefix
    {S : Type} `{ScoreArith S} {Vec : Type}
    (inverse_transformation : string -> list string -> result string)
    (self1 self2 : TransformerRNN S Vec)
    (word_embeddings1 context_vectors1 : list Vec) (x1 : list (list nat))
    (word_embeddings2 context_vectors2 : list Vec) (x2 : list (list nat))
    (surfaces : list string) (labels1 labels2 : list (list string)) :
  predicted_labels self1 (t_scores self1 word_embeddings1 context_vectors1 x1)
    = Ok labels1 ->
  predicted_labels self2 (t_scores self2 word_embeddings2 context_vectors2 x2)
    = Ok labels2 ->
  length labels1 = length labels2 ->
  (forall i surface a b,
      nth_error surfaces i = Some surface ->
      nth_error labels1 i = Some a -> nth_error labels2 i = Some b ->
      firstn (String.length surface) a = firstn (String.length surface) b) ->
  lemmas_of (t_predict inverse_transformation self1 word_embeddings1
               context_vectors1 x1 surfaces)
  = lemmas_of (t_predict inverse_transformation self2 word_embeddings2
                 context_vectors2 x2 surfaces) /\
  forall lemmas,
    lemmas_of (t_predict inverse_transformation self1 word_embeddings1
                 context_vectors1 x1 surfaces) = Ok lemmas ->
    length lemmas = Nat.min (length surfaces) (length labels1) /\
    forall i surface a,
      nth_error surfaces i = Some surface ->
      nth_error labels1 i = Some a ->
      exists lemma,
        nth_error lemmas i = Some lemma /\
        inverse_transformation surface (firstn (String.length surface) a)
        = Ok lemma.
Proof.
  intros E1 E2 Hlen Hagree.
  assert (Hl : forall (self : TransformerRNN S Vec) we cv x labels,
             predicted_labels self (t_scores self we cv x) = Ok labels ->
             lemmas_of (t_predict inverse_transformation self we cv x surfaces)
             = reconstruct_all inverse_transformation surfaces labels).
  { intros self we cv x labels E. unfold lemmas_of, t_predict.
    rewrite E. cbn [bind].
    destruct (reconstruct_all inverse_transformation surfaces labels);
      reflexivity. }
  rewrite (Hl _ _ _ _ _ E1), (Hl _ _ _ _ _ E2). split.
  - apply reconstruct_all_prefix; assumption.
  - intros lemmas E. apply reconstruct_all_nth. exact E.
Qed.

(** One word ["ab"] padded to three positions; the two runs label the
    padding differently and return the same lemma. *)
Lemma t_predict_reads_label_prefix_witness :
  lemmas_of (t_predict toy_inverse
               (toy_transformer [[qs [1; 0]; qs [0; 1]; qs [1; 0]]%Z])
               [tt] [tt] [[1; 2; 0]] ["ab"%string])
  = lemmas_of (t_predict toy_inverse
                 (toy_transformer [[qs [1; 0]; qs [0; 1]; qs [0; 1]]%Z])
                 [tt] [tt] [[1; 2; 0]] ["ab"%string]).
Proof.
  refine (proj1 (@t_predict_reads_label_prefix _ _ _ toy_inverse
                   (toy_transformer [[qs [1; 0]; qs [0; 1]; qs [1; 0]]%Z])
                   (toy_transformer [[qs [1; 0]; qs [0; 1]; qs [0; 1]]%Z])
                   [tt] [tt] [[1; 2; 0]] [tt] [tt] [[1; 2; 0]]
                   ["ab"%string]
                   [["K"; "D"; "K"]%string] [["K"; "D"; "D"]%string]
                   _ _ _ _)).
  - vm_compute. reflexivity.
  - vm_compute. reflexivity.
  - reflexivity.
  - intros [|i] surface a b Hs Ha Hb; simpl in Hs, Ha, Hb.
    + injection Hs as <-. injection Ha as <-. injection Hb as <-.
      reflexivity.
    + destruct i; discriminate.
Defined.

(* ================================================================= *)
(** * Further properties of the code *)

(** ** The inverse vocabulary, [{v: k for k, v in vocab.items()}] *)

Section Vocabulary.

Lemma invert_vocab_Some (items : list (string * nat)) (ix : nat) (k : string) :
  invert_vocab items ix = Some k -> In (k, ix) items.
Proof.
  induction items as [|[k0 v0] items IH]; simpl; [discriminate|].
  destruct (invert_vocab items ix) as [k'|].
  - intros [= <-]. right. now apply IH.
  - destruct (v0 =? ix) eqn:E; [|discriminate].
    apply Nat.eqb_eq in E. intros [= <-]. left. now subst.
Qed.

Lemma invert_vocab_None (items : list (string * nat)) (ix : nat) :
  invert_vocab items ix = None <-> forall k, ~ In (k, ix) items.
Proof.
  induction items as [|[k0 v0] items IH]; simpl.
  - split; [intros _ k [] | reflexivity].
  - destruct (invert_vocab items ix) as [k'|] eqn:E.
    + split; [discriminate|]. intros Hno. exfalso.
      apply (Hno k'). right. now apply invert_vocab_Some.
    + destruct (v0 =? ix) eqn:Ev.
      * apply Nat.eqb_eq in Ev. subst v0.
        split; [discriminate|]. intros Hno. exfalso.
        apply (Hno k0). now left.
      * apply Nat.eqb_neq in Ev. split; [|reflexivity].
        intros _ k [[= _ Hv]|Hin]; [contradiction|].
        revert Hin. now apply IH.
Qed.

(** Of the names that carry an index the one inserted last stays. *)
Lemma invert_vocab_last (l1 l2 : list (string * nat)) (k : string) (v : nat) :
  (forall k', ~ In (k', v) l2) ->
  invert_vocab (l1 ++ (k, v) :: l2) v = Some k.
Proof.
  intros Hno. induction l1 as [|[k0 v0] l1 IH]; simpl.
  - apply invert_vocab_None in Hno. rewrite Hno, Nat.eqb_refl. reflexivity.
  - rewrite IH. reflexivity.
Qed.

Lemma NoDup_snd_tail (l1 l2 : list (string * nat)) (k : string) (v : nat) :
  NoDup (map snd (l1 ++ (k, v) :: l2)) -> forall k', ~ In (k', v) l2.
Proof.
  rewrite map_app. simpl. intros Hnd k' Hin.
  apply NoDup_remove_2 in Hnd. apply Hnd.
  apply in_or_app. right. apply in_map_iff. exists (k', v). auto.
Qed.

End Vocabulary.

(** X1.  A lookup in the inverse vocabulary succeeds exactly on the indices
    some name carries, and then returns a name that carries the index; on
    any other index [index2token] and [index2transformation] raise
    KeyError, and they raise nothing else. *)
Theorem inverse_vocabulary_lookup
    {S : Type} {Vec Hidden : Type}
    (decoder : DecoderRNN S Vec Hidden) (transformer : TransformerRNN S Vec)
    (ix : nat) :
  (forall k, index2token decoder ix = Ok k -> In (k, ix) (vocab decoder)) /\
  (forall e, index2token decoder ix = Raise e <->
             e = KeyError /\ forall k, ~ In (k, ix) (vocab decoder)) /\
  (forall k, index2transformation transformer ix = Ok k ->
             In (k, ix) (t_vocab transformer)) /\
  (forall e, index2transformation transformer ix = Raise e <->
             e = KeyError /\ forall k, ~ In (k, ix) (t_vocab transformer)).
Proof.
  assert (Hgen : forall items,
             (forall k,
                 match invert_vocab items ix with
                 | Some k0 => Ok k0
                 | None => Raise KeyError
                 end = Ok k -> In (k, ix) items) /\
             (forall e,
                 match invert_vocab items ix with
                 | Some k0 => @Ok string k0
                 | None => Raise KeyError
                 end = Raise e <->
                 e = KeyError /\ forall k, ~ In (k, ix) items)).
  { intros items. destruct (invert_vocab items ix) as [k0|] eqn:E.
    - split.
      + intros k [= <-]. now apply invert_vocab_Some.
      + intros e. split; [discriminate|]. intros (_ & Hno). exfalso.
        apply (Hno k0). now apply invert_vocab_Some.
    - split; [discriminate|]. intros e. split.
      + intros [= <-]. split; [reflexivity|]. now apply invert_vocab_None.
      + intros (-> & _). reflexivity. }
  unfold index2token, index2transformation.
  destruct (Hgen (vocab decoder)) as (H1 & H2).
  destruct (Hgen (t_vocab transformer)) as (H3 & H4).
  split; [exact H1|]. split; [exact H2|]. split; [exact H3 | exact H4].
Qed.

(** X2.  Round trip: in a vocabulary whose indices are pairwise distinct,
    the inverse vocabulary sends the index of every name back to the name. *)
Theorem inverse_vocabulary_round_trip
    {S : Type} {Vec Hidden : Type}
    (self : DecoderRNN S Vec Hidden) (k : string) (v : nat) :
  NoDup (map snd (vocab self)) ->
  In (k, v) (vocab self) ->
  index2token self v = Ok k.
Proof.
  intros Hnd Hin. unfold index2token.
  apply in_split in Hin. destruct Hin as (l1 & l2 & E).
  rewrite E in Hnd |- *.
  rewrite invert_vocab_last; [reflexivity|].
  eapply NoDup_snd_tail. exact Hnd.
Qed.

Lemma inverse_vocabulary_round_trip_witness :
  index2token a_then_eos 4 = Ok "b"%string.
Proof.
  apply inverse_vocabulary_round_trip.
  - simpl. repeat constructor; simpl; intuition discriminate.
  - simpl. intuition.
Defined.

(** X3.  When several names of the vocabulary carry the same index, the
    inverse vocabulary keeps the one inserted last and no other. *)
Theorem inverse_vocabulary_last_wins
    {S : Type} {Vec Hidden : Type}
    (self : DecoderRNN S Vec Hidden)
    (l1 l2 : list (string * nat)) (k : string) (v : nat) :
  vocab self = l1 ++ (k, v) :: l2 ->
  (forall k', ~ In (k', v) l2) ->
  index2token self v = Ok k /\
  forall k0, k0 <> k -> index2token self v <> Ok k0.
Proof.
  intros E Hno. unfold index2token. rewrite E.
  rewrite invert_vocab_last by exact Hno. split; [reflexivity|].
  intros k0 Hne. congruence.
Qed.

Lemma inverse_vocabulary_last_wins_witness :
  index2token (scripted [("a", 3); ("b", 3)]%string [] []) 3
  = Ok "b"%string.
Proof.
  refine (proj1 (@inverse_vocabulary_last_wins _ _ _
                   (scripted [("a", 3); ("b", 3)]%string [] [])
                   [("a", 3)]%string [] "b"%string 3 eq_refl _)).
  intros k' [].
Defined.

(** X4.  In a vocabulary whose names are pairwise distinct, two different
    indices never decode to the same name. *)
Theorem inverse_vocabulary_injective
    {S : Type} {Vec Hidden : Type}
    (self : DecoderRNN S Vec Hidden) (i j : nat) (k : string) :
  NoDup (map fst (vocab self)) ->
  index2token self i = Ok k ->
  index2token self j = Ok k ->
  i = j.
Proof.
  unfold index2token. intros Hnd Hi Hj.
  destruct (invert_vocab (vocab self) i) as [ki|] eqn:Ei; [|discriminate].
  destruct (invert_vocab (vocab self) j) as [kj|] eqn:Ej; [|discriminate].
  injection Hi as ->. injection Hj as ->.
  apply invert_vocab_Some in Ei, Ej.
  revert Hnd Ei Ej. generalize (vocab self) as items.
  induction items as [|[k0 v0] items IH]; simpl; [tauto|].
  intros Hnd. inversion Hnd as [|? ? Hnotin Hnd']; subst.
  assert (Hfst : forall v, In (k0, v) items -> False).
  { intros v Hv. apply Hnotin. apply in_map_iff. exists (k0, v). auto. }
  intros [Ei|Hi] [Ej|Hj].
  - congruence.
  - injection Ei as -> ->. exfalso. eauto.
  - injection Ej as -> ->. exfalso. eauto.
  - now apply IH.
Qed.

Lemma char_vocab_names_distinct : NoDup (map fst (vocab a_then_eos)).
Proof. simpl. repeat constructor; simpl; intuition discriminate. Defined.

Lemma inverse_vocabulary_injective_witness :
  NoDup (map fst (vocab a_then_eos)) /\
  index2token a_then_eos 3 = Ok "a"%string /\ 3 = 3.
Proof.
  split; [exact char_vocab_names_distinct|]. split; [reflexivity|].
  exact (@inverse_vocabulary_injective _ _ _ a_then_eos 3 3 "a"%string
           char_vocab_names_distinct eq_refl eq_refl).
Defined.

(* ================================================================= *)
(** ** What [topk] returns *)

Section TopKRows.
Context {S : Type} `{ScoreArith S}.

Lemma enumerate_from_nth {A : Type} (l : list A) :
  forall k i a,
    In (i, a) (enumerate_from k l) ->
    k <= i /\ nth_error l (i - k) = Some a.
Proof.
  induction l as [|b l IH]; intros k i a; simpl; [tauto|].
  intros [[= <- <-]|Hin].
  - split; [lia|]. now rewrite Nat.sub_diag.
  - apply IH in Hin. destruct Hin as (Hle & Hnth). split; [lia|].
    replace (i - k) with (Datatypes.S (i - Datatypes.S k)) by lia.
    exact Hnth.
Qed.

(** Every pair of a top-k list is an index of the row with its entry. *)
Lemma topk_In_row (k : nat) (row : list S) (top : list (nat * S))
    (i : nat) (v : S) :
  topk k row = Ok top -> In (i, v) top -> nth_error row i = Some v.
Proof.
  unfold topk. destruct (length row <? k); [discriminate|].
  intros [= <-] Hin.
  assert (Hin' : In (i, v) (sorted_desc snd (enumerate row))).
  { rewrite <- (firstn_skipn k (sorted_desc snd (enumerate row))).
    apply in_or_app. now left. }
  apply sorted_desc_In in Hin'. apply enumerate_from_nth in Hin'.
  destruct Hin' as (_ & Hnth). now rewrite Nat.sub_0_r in Hnth.
Qed.

Lemma topk_succeeds (k : nat) (row : list S) :
  k <= length row -> exists top, topk k row = Ok top.
Proof.
  intros Hk. unfold topk.
  replace (length row <? k) with false by (symmetry; apply Nat.ltb_ge; lia).
  eauto.
Qed.

Lemma topk_fails (k : nat) (row : list S) :
  length row < k -> topk k row = Raise RuntimeError.
Proof.
  intros Hk. unfold topk.
  now replace (length row <? k) with true by (symmetry; apply Nat.ltb_lt; lia).
Qed.

Lemma argmax_lt (row : list S) (ix : nat) :
  argmax row = Ok ix -> ix < length row.
Proof.
  intros E. apply argmax_Ok_iff in E. destruct E as (v & E).
  apply nth_error_Some. erewrite topk_In_row; [discriminate | exact E|].
  now left.
Qed.

Lemma argmax_succeeds (row : list S) :
  row <> [] -> exists ix, argmax row = Ok ix.
Proof.
  intros Hne. destruct (@topk_succeeds 1 row) as (top & E).
  { destruct row; [contradiction | simpl; lia]. }
  destruct (topk_1_inv _ E) as (ix & v & ->).
  exists ix. apply argmax_Ok_iff. eauto.
Qed.

End TopKRows.

(* ================================================================= *)
(** ** Greedy decoding: lengths, errors and the role of [max_len] *)

Section GreedyMore.
Context {S : Type} `{ScoreArith S} {Vec Hidden : Type}.
Variable self : DecoderRNN S Vec Hidden.


End GreedyMore.



(** X6.  Greedy decoding never returns more predictions than it wrote rows
    of scores, nor more rows than [max_len]; after a run that ended on
    end-of-sequence the predictions are fewer than the rows. *)
Theorem predict_lengths
    {S : Type} `{ScoreArith S} {Vec Hidden : Type}
    (self : DecoderRNN S Vec Hidden) (word_embedding context_vector : Vec)
    (max_len : nat) (rows : list (list S)) (predictions : list string) :
  predict self word_embedding context_vector max_len
    = Ok (rows, predictions) ->
  length predictions <= length rows /\
  length rows <= max_len /\
  (length rows < max_len -> length predictions < length rows).
Proof.
  unfold predict. intros E. apply predict_loop_spec in E.
  destruct E as (toks & names & Hrows & Hlen & _ & _ & Hend & Hp & Hnames).
  simpl in Hrows, Hp. subst names.
  apply (f_equal (@length _)) in Hnames. rewrite !length_map in Hnames.
  rewrite Hrows, <- Hnames.
  split; [apply filter_length_le|]. split; [exact Hlen|].
  intros Hlt. destruct (Hend Hlt) as (toks0 & ->).
  rewrite filter_app, !length_app. simpl.
  pose proof (filter_length_le (fun t => 2 <? t) toks0). lia.
Qed.

Lemma predict_lengths_witness :
  length ["a"%string] <= 2 /\ 2 <= 5 /\ (2 < 5 -> length ["a"%string] < 2).
Proof.
  exact (@predict_lengths _ _ _ _ a_then_eos tt tt 5
           [qs [0; 1; 0; 3; 0]%Z; qs [0; 3; 0; 1; 0]%Z] ["a"%string]
           eq_refl).
Defined.

(* ================================================================= *)
(** ** Decoding with a vocabulary that names every class *)

Section DecoderSafety.
Context {S : Type} `{ScoreArith S} {Vec Hidden : Type}.
Variable self : DecoderRNN S Vec Hidden.

(** The classifier has [len(vocab)] outputs. *)
Hypothesis rows_cover_vocab :
  forall tok h,
    length (fst (decoder_step self tok h)) = length (vocab self).
Hypothesis vocab_not_empty : 0 < length (vocab self).
(** Every class index is the index of some name. *)
Hypothesis vocab_names_every_class :
  forall ix, ix < length (vocab self) -> exists k, index2token self ix = Ok k.
Hypothesis softmax_keeps_length :
  forall row, length (softmax self row) = length row.


Lemma new_state_total (surface_len : Z) (st : State S Hidden) (h : Hidden)
    (ix : nat) (p : S) :
  ix < length (vocab self) ->
  exists s, new_state self surface_len st h (ix, p) = Ok s.
Proof.
  intros Hlt. unfold new_state. destruct (ix =? 1); [eauto|].
  destruct (vocab_names_every_class Hlt) as (k & ->). cbn [bind]. eauto.
Qed.

Lemma expand_total (surface_len : Z) (st : State S Hidden) (h : Hidden)
    (cands : list (nat * S)) :
  Forall (fun c => fst c < length (vocab self)) cands ->
  forall ns cs,
    exists ns' cs',
      expand self surface_len st h cands ns cs = Ok (ns', cs').
Proof.
  induction 1 as [|[ix p] cands Hc _ IH]; intros ns cs; cbn [expand];
    [eauto|].
  simpl in Hc.
  destruct (new_state_total surface_len st h p Hc) as (s & ->).
  cbn [bind fst]. destruct (ix =? 1); apply IH.
Qed.

Lemma inner_loop_total (surface_len : Z) (beam_size : nat)
    (states : list (State S Hidden)) :
  beam_size <= length (vocab self) ->
  forall ns cs,
    exists ns' cs',
      inner_loop self surface_len beam_size states ns cs = Ok (ns', cs').
Proof.
  clear vocab_not_empty.
  intros Hb. induction states as [|st states IH]; intros ns cs;
    cbn [inner_loop]; [eauto|].
  destruct (Z.of_nat (String.length (prediction st)) >=? surface_len + 2)%Z;
    [apply IH|].
  pose proof (rows_cover_vocab (last_output st) (hidden st)) as Hlen.
  destruct (decoder_step self (last_output st) (hidden st)) as [scores h].
  simpl in Hlen.
  destruct (@topk_succeeds _ _ beam_size (softmax self scores))
    as (top & Etop); [rewrite softmax_keeps_length; lia|].
  rewrite Etop. cbn [bind].
  destruct (expand_total surface_len st h (cands := top)) with (ns := ns)
    (cs := cs) as (ns1 & cs1 & ->).
  { apply Forall_forall. intros [i v] Hin. simpl.
    rewrite <- Hlen, <- softmax_keeps_length. apply nth_error_Some.
    erewrite topk_In_row; [discriminate | exact Etop | exact Hin]. }
  cbn [bind]. apply IH.
Qed.

Lemma outer_loop_never_raises (surface_len : Z) (beam_size : nat) :
  beam_size <= length (vocab self) ->
  forall fuel states cs e,
    outer_loop self fuel surface_len beam_size states cs <> Some (Raise e).
Proof.
  intros Hb. induction fuel as [|fuel IH]; intros states cs e;
    destruct states as [|st states]; simpl; try discriminate.
  unfold outer_body.
  destruct (inner_loop_total surface_len (st :: states) Hb [] cs)
    as (ns & cs' & ->).
  cbn [bind]. apply IH.
Qed.

End DecoderSafety.

Lemma softmax2_length (row : list Q) : length (softmax2 row) = length row.
Proof. unfold softmax2. now rewrite !length_map. Defined.

Lemma a_then_eos_rows (tok h : nat) :
  length (fst (decoder_step a_then_eos tok h)) = length (vocab a_then_eos).
Proof. rewrite a_then_eos_step. destruct h; reflexivity. Defined.

Lemma char_vocab_names_every_class (ix : nat) :
  ix < length (vocab a_then_eos) ->
  exists k, index2token a_then_eos ix = Ok k.
Proof.
  simpl. intros Hlt.
  do 5 (destruct ix as [|ix]; [eexists; reflexivity|]). lia.
Defined.



(** X8.  When the classifier's rows have [len(vocab)] entries, every class
    index below [len(vocab)] has a name, the softmax keeps the length of a
    row and [beam_size <= len(vocab)], beam search raises neither the
    KeyError of a class index without a name nor the RuntimeError of a
    [topk] wider than the row. *)
Theorem predict_beam_no_KeyError_no_RuntimeError
    {S : Type} `{ScoreArith S} {Vec Hidden : Type}
    (self : DecoderRNN S Vec Hidden) (fuel : nat)
    (word_embedding context_vector : Vec)
    (surface_len : Z) (beam_size max_len : nat) :
  (forall tok h,
      length (fst (decoder_step self tok h)) = length (vocab self)) ->
  (forall ix, ix < length (vocab self) ->
              exists k, index2token self ix = Ok k) ->
  (forall row, length (softmax self row) = length row) ->
  beam_size <= length (vocab self) ->
  predict_beam self fuel word_embedding context_vector surface_len
    beam_size max_len <> Some (Raise KeyError) /\
  predict_beam self fuel word_embedding context_vector surface_len
    beam_size max_len <> Some (Raise RuntimeError).
Proof.
  intros Hrows Hvoc Hsm Hb. unfold predict_beam.
  pose proof (outer_loop_never_raises self Hrows Hvoc Hsm surface_len Hb fuel
                [initial_state self word_embedding context_vector] [])
    as Hno.
  destruct (outer_loop self fuel surface_len beam_size
              [initial_state self word_embedding context_vector] [])
    as [[cs|e0]|].
  - destruct (sorted_desc normalized_score cs); split; discriminate.
  - exfalso. now apply (Hno e0).
  - split; discriminate.
Qed.

Lemma predict_beam_no_KeyError_no_RuntimeError_witness :
  predict_beam a_then_eos 10 tt tt 3 2 50 <> Some (Raise KeyError) /\
  predict_beam a_then_eos 10 tt tt 3 2 50 <> Some (Raise RuntimeError).
Proof.
  apply (@predict_beam_no_KeyError_no_RuntimeError _ _ _ _ a_then_eos 10 tt
           tt 3 2 50).
  - exact a_then_eos_rows.
  - exact char_vocab_names_every_class.
  - exact softmax2_length.
  - simpl. lia.
Defined.

(* ================================================================= *)
(** ** Beam search: degenerate beams *)

Section BeamEdges.
Context {S : Type} `{ScoreArith S} {Vec Hidden : Type}.
Variable self : DecoderRNN S Vec Hidden.

Lemma outer_loop_empty_pass (fuel : nat) (surface_len : Z) (beam_size : nat)
    (states : list (State S Hidden)) :
  states <> [] ->
  inner_loop self surface_len beam_size states [] [] = Ok ([], []) ->
  outer_loop self (Datatypes.S fuel) surface_len beam_size states []
    = Some (Ok []).
Proof.
  intros Hne E. destruct states as [|st states]; [contradiction|].
  cbn [outer_loop]. unfold outer_body. rewrite E. cbn [bind].
  simpl. rewrite firstn_nil. destruct fuel; reflexivity.
Qed.

End BeamEdges.

(** X9.  With [beam_size = 0] or [surface_len <= -2] beam search expands
    nothing that could complete: the first pass leaves no active state and
    no completed state, and [predict_beam] raises IndexError. *)
Theorem predict_beam_nothing_to_expand
    {S : Type} `{ScoreArith S} {Vec Hidden : Type}
    (self : DecoderRNN S Vec Hidden) (fuel : nat)
    (word_embedding context_vector : Vec)
    (surface_len : Z) (beam_size max_len : nat) :
  beam_size = 0 \/ (surface_len <= -2)%Z ->
  1 <= fuel ->
  predict_beam self fuel word_embedding context_vector surface_len
    beam_size max_len = Some (Raise IndexError).
Proof.
  intros Hcase Hfuel. destruct fuel as [|fuel]; [lia|].
  unfold predict_beam.
  rewrite outer_loop_empty_pass; [reflexivity | discriminate |].
  cbn [inner_loop initial_state prediction String.length].
  destruct (Z.of_nat 0 >=? surface_len + 2)%Z eqn:E; [reflexivity|].
  destruct Hcase as [-> | Hsl].
  - destruct (decoder_step self _ _) as [scores h].
    unfold topk. simpl. reflexivity.
  - rewrite Z.geb_leb in E. apply Z.leb_gt in E. lia.
Qed.

Lemma predict_beam_nothing_to_expand_witness :
  predict_beam a_then_eos 1 tt tt 3 0 50 = Some (Raise IndexError).
Proof.
  apply predict_beam_nothing_to_expand; [now left | lia].
Defined.

(** X10.  When [beam_size] exceeds the length of the probability rows (the
    size of the vocabulary) and the initial state is expanded at all
    ([surface_len > -2]), the first [topk] raises and so does
    [predict_beam], with RuntimeError. *)
Theorem predict_beam_beam_wider_than_vocab
    {S : Type} `{ScoreArith S} {Vec Hidden : Type}
    (self : DecoderRNN S Vec Hidden) (fuel : nat)
    (word_embedding context_vector : Vec)
    (surface_len : Z) (beam_size max_len : nat) :
  (forall tok h,
      length (softmax self (fst (decoder_step self tok h))) < beam_size) ->
  (-2 < surface_len)%Z ->
  1 <= fuel ->
  predict_beam self fuel word_embedding context_vector surface_len
    beam_size max_len = Some (Raise RuntimeError).
Proof.
  intros Hrow Hsl Hfuel. destruct fuel as [|fuel]; [lia|].
  unfold predict_beam. cbn [outer_loop]. unfold outer_body.
  cbn [inner_loop initial_state prediction String.length last_output hidden].
  replace (Z.of_nat 0 >=? surface_len + 2)%Z with false
    by (symmetry; rewrite Z.geb_leb; apply Z.leb_gt; lia).
  specialize (Hrow 2 (init_hidden self context_vector word_embedding)).
  destruct (decoder_step self 2 _) as [scores h]. simpl in Hrow.
  rewrite (topk_fails _ Hrow). reflexivity.
Qed.

Lemma predict_beam_beam_wider_than_vocab_witness :
  predict_beam a_then_eos 1 tt tt 3 6 50 = Some (Raise RuntimeError).
Proof.
  apply predict_beam_beam_wider_than_vocab.
  - intros tok h. rewrite (softmax2_length _ : length (softmax a_then_eos _) = _).
    rewrite a_then_eos_rows. simpl. lia.
  - lia.
  - lia.
Defined.

(* ================================================================= *)
(** ** Beam search: the shape of the states *)

Section BeamShape.
Context {S : Type} `{ScoreArith S} {Vec Hidden : Type}.
Variable self : DecoderRNN S Vec Hidden.
Variable surface_len : Z.
Variable beam_size : nat.

(** [s] was made from [st] by a candidate other than end-of-sequence. *)
Let continued (states : list (State S Hidden)) (s : State S Hidden) : Prop :=
  exists st ix tok,
    In st states /\ open_state surface_len st /\ ix <> 1 /\
    index2token self ix = Ok tok /\
    prediction s = String.append (prediction st) tok /\ last_output s = ix.

(** [s] was made from [st] by the end-of-sequence candidate. *)
Let ended (states : list (State S Hidden)) (s : State S Hidden) : Prop :=
  exists st,
    In st states /\ open_state surface_len st /\
    prediction s = prediction st /\ last_output s = 1.

Lemma expand_children (st : State S Hidden) (h : Hidden)
    (cands : list (nat * S)) :
  open_state surface_len st ->
  forall ns cs ns' cs',
    expand self surface_len st h cands ns cs = Ok (ns', cs') ->
    exists na ca,
      ns' = ns ++ na /\ cs' = cs ++ ca /\
      Forall (continued [st]) na /\ Forall (ended [st]) ca /\
      length na + length ca = length cands.
Proof.
  intros Ho. induction cands as [|[ix p] cands IH]; intros ns cs ns' cs';
    cbn [expand].
  - intros [= <- <-]. exists [], []. rewrite !app_nil_r.
    repeat split; constructor.
  - intros E. bind_inv E. rename a into s.
    apply new_state_inv in Ha. destruct Ha as (_ & Hlast & _ & Hp).
    cbn [fst] in E. destruct (ix =? 1) eqn:Eix.
    + apply Nat.eqb_eq in Eix.
      destruct Hp as [(_ & Hp)|(Hne & _)]; [|contradiction].
      apply IH in E. destruct E as (na & ca & -> & -> & Hna & Hca & Hlen).
      exists na, (s :: ca). rewrite <- app_assoc. simpl.
      split; [reflexivity|]. split; [reflexivity|]. split; [exact Hna|].
      split; [|lia]. constructor; [|exact Hca].
      exists st. split; [now left|]. split; [exact Ho|].
      split; [exact Hp | congruence].
    + apply Nat.eqb_neq in Eix.
      destruct Hp as [(He & _)|(_ & tok & Htok & Hp)]; [contradiction|].
      apply IH in E. destruct E as (na & ca & -> & -> & Hna & Hca & Hlen).
      exists (s :: na), ca. rewrite <- app_assoc. simpl.
      split; [reflexivity|]. split; [reflexivity|].
      split; [|split; [exact Hca | lia]].
      constructor; [|exact Hna].
      exists st, ix, tok. split; [now left|]. split; [exact Ho|].
      split; [exact Eix|]. split; [exact Htok|]. split; [exact Hp|].
      exact Hlast.
Qed.

Lemma continued_mono (l1 l2 : list (State S Hidden)) (s : State S Hidden) :
  incl l1 l2 -> continued l1 s -> continued l2 s.
Proof.
  intros Hi (st & ix & tok & Hin & Hrest). exists st, ix, tok. auto.
Qed.

Lemma ended_mono (l1 l2 : list (State S Hidden)) (s : State S Hidden) :
  incl l1 l2 -> ended l1 s -> ended l2 s.
Proof.
  intros Hi (st & Hin & Hrest). exists st. auto.
Qed.

Lemma inner_loop_children (states : list (State S Hidden)) :
  forall ns cs ns' cs',
    inner_loop self surface_len beam_size states ns cs = Ok (ns', cs') ->
    exists na ca,
      ns' = ns ++ na /\ cs' = cs ++ ca /\
      Forall (continued states) na /\ Forall (ended states) ca /\
      length na + length ca <= length states * beam_size.
Proof.
  induction states as [|st states IH]; intros ns cs ns' cs';
    cbn [inner_loop].
  - intros [= <- <-]. exists [], []. rewrite !app_nil_r.
    repeat split; constructor.
  - assert (Htail : incl states (st :: states)) by (intros x Hx; now right).
    destruct (Z.of_nat (String.length (prediction st)) >=? surface_len + 2)%Z
      eqn:Elen.
    + intros E. apply IH in E.
      destruct E as (na & ca & -> & -> & Hna & Hca & Hlen).
      exists na, ca. split; [reflexivity|]. split; [reflexivity|].
      split; [|split].
      * eapply Forall_impl; [|exact Hna]. intros s. now apply continued_mono.
      * eapply Forall_impl; [|exact Hca]. intros s. now apply ended_mono.
      * simpl. lia.
    + assert (Hopen : open_state surface_len st).
      { unfold open_state. rewrite Z.geb_leb in Elen.
        apply Z.leb_gt in Elen. lia. }
      assert (Hhead : incl [st] (st :: states)).
      { intros x [<-|[]]. now left. }
      destruct (decoder_step self (last_output st) (hidden st))
        as [scores h] eqn:Estep.
      intros E. bind_inv E. rename a into cands. bind_inv E.
      destruct a as [ns1 cs1].
      apply topk_length in Ha.
      apply (expand_children h cands Hopen) in Ha0.
      destruct Ha0 as (na1 & ca1 & -> & -> & Hna1 & Hca1 & Hlen1).
      apply IH in E. destruct E as (na & ca & -> & -> & Hna & Hca & Hlen).
      exists (na1 ++ na), (ca1 ++ ca). rewrite !app_assoc.
      split; [reflexivity|]. split; [reflexivity|]. split; [|split].
      * apply Forall_app. split.
        -- eapply Forall_impl; [|exact Hna1].
           intros s. now apply continued_mono.
        -- eapply Forall_impl; [|exact Hna].
           intros s. now apply continued_mono.
      * apply Forall_app. split.
        -- eapply Forall_impl; [|exact Hca1].
           intros s. now apply ended_mono.
        -- eapply Forall_impl; [|exact Hca].
           intros s. now apply ended_mono.
      * rewrite !length_app. simpl. lia.
Qed.

(** One pass: the next beam holds at most [beam_size] continued states, and
    the completed set grows by ended states, at most [beam_size] for each
    state of the beam. *)
Lemma outer_body_children (states cs states' cs' : list (State S Hidden)) :
  outer_body self surface_len beam_size states cs = Ok (states', cs') ->
  Forall (continued states) states' /\
  length states' <= beam_size /\
  exists ca,
    cs' = cs ++ ca /\ Forall (ended states) ca /\
    length ca <= length states * beam_size.
Proof.
  unfold outer_body. intros E. bind_inv E. destruct a as [ns cs1].
  injection E as <- <-.
  apply inner_loop_children in Ha.
  destruct Ha as (na & ca & -> & -> & Hna & Hca & Hlen). simpl.
  split; [apply Forall_firstn, sorted_desc_Forall; exact Hna|].
  split; [apply firstn_le_length|].
  exists ca. repeat split; auto. lia.
Qed.

End BeamShape.

(** X11.  The beam never holds more than [beam_size] states after the first
    pass (one state before it), and after [k] passes the completed set has
    at most [k * max(1, beam_size) * beam_size] states. *)
Theorem generation_sizes
    {S : Type} `{ScoreArith S} {Vec Hidden : Type}
    (self : DecoderRNN S Vec Hidden) (word_embedding context_vector : Vec)
    (surface_len : Z) (beam_size : nat) (k : nat)
    (states completed_states : list (State S Hidden)) :
  generation self k word_embedding context_vector surface_len beam_size
    = Ok (states, completed_states) ->
  length states <= Nat.max 1 beam_size /\
  (1 <= k -> length states <= beam_size) /\
  length completed_states <= k * (Nat.max 1 beam_size * beam_size).
Proof.
  revert states completed_states.
  induction k as [|k IH]; intros states cs; cbn [generation].
  - intros [= <- <-]. cbn [length]. repeat split; lia.
  - intros E. bind_inv E. destruct a as [states0 cs0].
    destruct (IH _ _ Ha) as (Hs0 & _ & Hc0).
    apply outer_body_children in E.
    destruct E as (_ & Hlen & ca & -> & _ & Hca).
    assert (Hmul : length states0 * beam_size
                   <= Nat.max 1 beam_size * beam_size)
      by (apply Nat.mul_le_mono_r; exact Hs0).
    rewrite length_app. repeat split; lia.
Qed.

Lemma generation_sizes_witness :
  exists states completed_states,
    generation a_then_eos 2 tt tt 3 2 = Ok (states, completed_states) /\
    length states <= 2 /\ length completed_states <= 2 * (2 * 2).
Proof.
  eexists. eexists. split; [vm_compute; reflexivity|].
  refine ((fun Hs => conj (proj1 Hs) (proj2 (proj2 Hs)))
            (@generation_sizes _ _ _ _ a_then_eos tt tt 3 2 2 _ _ _)).
  vm_compute. reflexivity.
Defined.

(** X12.  After [k] passes every active state spells exactly [k] tokens,
    none of them end-of-sequence: its prediction is the concatenation of
    their names and its last output is the last of them (start-of-sequence
    before the first pass).  Every completed state spells fewer than [k]
    such tokens and has end-of-sequence as its last output. *)
Theorem generation_states_spell_tokens
    {S : Type} `{ScoreArith S} {Vec Hidden : Type}
    (self : DecoderRNN S Vec Hidden) (word_embedding context_vector : Vec)
    (surface_len : Z) (beam_size : nat) (k : nat)
    (states completed_states : list (State S Hidden)) :
  generation self k word_embedding context_vector surface_len beam_size
    = Ok (states, completed_states) ->
  Forall (fun s : State S Hidden =>
            exists toks names,
              length toks = k /\ ~ In 1 toks /\
              map (index2token self) toks = map Ok names /\
              prediction s = join names /\
              last_output s = last toks 2) states /\
  Forall (fun s : State S Hidden =>
            exists toks names,
              length toks < k /\ ~ In 1 toks /\
              map (index2token self) toks = map Ok names /\
              prediction s = join names /\
              last_output s = 1) completed_states.
Proof.
  revert states completed_states.
  induction k as [|k IH]; intros states cs; cbn [generation].
  - intros [= <- <-]. split; [|constructor].
    constructor; [|constructor].
    exists [], []. simpl. repeat split; auto.
  - intros E. bind_inv E. destruct a as [states0 cs0].
    destruct (IH _ _ Ha) as (Hs0 & Hc0).
    apply outer_body_children in E.
    destruct E as (Hnext & _ & ca & -> & Hca & _).
    rewrite Forall_forall in Hs0. split.
    + eapply Forall_impl; [|exact Hnext].
      intros s (st & ix & tok & Hin & _ & Hix & Htok & Hp & Hlast).
      destruct (Hs0 _ Hin) as (toks & names & Hlen & Hno & Hmap & Hpst & _).
      exists (toks ++ [ix]), (names ++ [tok]).
      rewrite length_app, !map_app, last_last, join_snoc. simpl.
      repeat split; try lia; try congruence.
      intros Hin1. apply in_app_or in Hin1.
      destruct Hin1 as [Hin1|[Hin1|[]]]; [contradiction | congruence].
    + apply Forall_app. split.
      * eapply Forall_impl; [|exact Hc0].
        intros s (toks & names & Hlen & Hrest).
        exists toks, names. split; [lia | exact Hrest].
      * eapply Forall_impl; [|exact Hca].
        intros s (st & Hin & _ & Hp & Hlast).
        destruct (Hs0 _ Hin) as (toks & names & Hlen & Hno & Hmap & Hpst & _).
        exists toks, names. repeat split; try lia; try congruence.
Qed.

Lemma generation_states_spell_tokens_witness :
  exists toks names,
    length toks < 2 /\ ~ In 1 toks /\
    map (index2token a_then_eos) toks = map Ok names /\
    join names = "a"%string.
Proof.
  destruct (@generation_states_spell_tokens _ _ _ _ a_then_eos tt tt 3 1 2
              [] [mkState "a" (64 # 169)%Q
                          (Qdiv (64 # 169)
                                (Qdiv (inject_Z 5 + (inject_Z 1 + inject_Z 1))
                                      (inject_Z 6))
                           * Qdiv (inject_Z 3) (inject_Z 1 + inject_Z 1))%Q
                          1 2])
    as (_ & Hc).
  - vm_compute. reflexivity.
  - inversion Hc as [|s l (toks & names & Hlen & Hno & Hmap & Hp & _) _].
    exists toks, names. simpl in Hp. auto.
Defined.

(* ================================================================= *)
(** ** Beam search: which completed state is returned *)

Section SortedHead.
Context {S : Type} `{ScoreArith S} {A : Type}.
Variable key : A -> S.

(** The head of the sorted list stands in the input behind elements of
    strictly lower key only: of equal keys the first seen comes first. *)
Lemma sorted_desc_head_first (l : list A) (h : A) (t : list A) :
  sorted_desc key l = h :: t ->
  exists l1 l2,
    l = l1 ++ h :: l2 /\
    Forall (fun a => s_ltb (key a) (key h) = true) l1.
Proof.
  revert h t. induction l as [|x l IH]; intros h t; simpl; [discriminate|].
  destruct (sorted_desc key l) as [|y t'] eqn:Es; simpl.
  - intros [= <- <-]. apply sorted_desc_nil_inv in Es. subst l.
    exists [], []. split; [reflexivity | constructor].
  - destruct (s_ltb (key x) (key y)) eqn:Exy.
    + intros [= <- <-].
      destruct (IH _ _ eq_refl) as (l1 & l2 & -> & Hl1).
      exists (x :: l1), l2. split; [reflexivity|].
      constructor; assumption.
    + intros [= <- <-]. exists [], l. split; [reflexivity | constructor].
Qed.

Hypothesis ltb_asym :
  forall a b : S, s_ltb a b = true -> s_ltb b a = false.
Hypothesis ltb_negtrans :
  forall a b c : S,
    s_ltb a b = false -> s_ltb b c = false -> s_ltb a c = false.

Lemma ltb_irrefl (a : S) : s_ltb a a = false.
Proof.
  destruct (s_ltb a a) eqn:E; [|reflexivity].
  rewrite (ltb_asym _ _ E) in E. discriminate.
Qed.

(** No element of the input has a key above the head's. *)
Lemma sorted_desc_head_max (l : list A) (h : A) (t : list A) :
  sorted_desc key l = h :: t ->
  Forall (fun a => s_ltb (key h) (key a) = false) l.
Proof.
  revert h t. induction l as [|x l IH]; intros h t; simpl; [discriminate|].
  destruct (sorted_desc key l) as [|y t'] eqn:Es; simpl.
  - intros [= <- <-]. apply sorted_desc_nil_inv in Es. subst l.
    constructor; [apply ltb_irrefl | constructor].
  - specialize (IH _ _ eq_refl).
    destruct (s_ltb (key x) (key y)) eqn:Exy.
    + intros [= <- <-]. constructor; [now apply ltb_asym | exact IH].
    + intros [= <- <-]. constructor; [apply ltb_irrefl|].
      eapply Forall_impl; [|exact IH].
      intros a Hya. exact (ltb_negtrans _ _ _ Exy Hya).
Qed.

End SortedHead.

Lemma Q_ltb_asym (a b : Q) : s_ltb a b = true -> s_ltb b a = false.
Proof.
  simpl. intros E. apply negb_true_iff in E. apply negb_false_iff.
  apply Qle_bool_iff. apply Qlt_le_weak. apply Qnot_le_lt.
  intros Hle. apply Qle_bool_iff in Hle. congruence.
Defined.

Lemma Q_ltb_negtrans (a b c : Q) :
  s_ltb a b = false -> s_ltb b c = false -> s_ltb a c = false.
Proof.
  simpl. intros E1 E2. apply negb_false_iff in E1, E2.
  apply negb_false_iff. apply Qle_bool_iff in E1, E2. apply Qle_bool_iff.
  eapply Qle_trans; eassumption.
Defined.

(** X13.  When the comparison of scores is a strict weak order, the
    prediction [predict_beam] returns belongs to a completed state whose
    normalized score no completed state exceeds; whatever the comparison,
    every state completed before it has a strictly lower normalized score,
    so of several best states the first completed is returned. *)
Theorem predict_beam_returns_best
    {S : Type} `{ScoreArith S} {Vec Hidden : Type}
    (self : DecoderRNN S Vec Hidden) (fuel : nat)
    (word_embedding context_vector : Vec)
    (surface_len : Z) (beam_size max_len : nat)
    (completed_states : list (State S Hidden)) :
  (forall a b : S, s_ltb a b = true -> s_ltb b a = false) ->
  (forall a b c : S,
      s_ltb a b = false -> s_ltb b c = false -> s_ltb a c = false) ->
  outer_loop self fuel surface_len beam_size
    [initial_state self word_embedding context_vector] []
    = Some (Ok completed_states) ->
  completed_states <> [] ->
  exists earlier best later,
    completed_states = earlier ++ best :: later /\
    predict_beam self fuel word_embedding context_vector surface_len
      beam_size max_len = Some (Ok (prediction best)) /\
    Forall (fun s => s_ltb (normalized_score best) (normalized_score s)
                     = false) completed_states /\
    Forall (fun s => s_ltb (normalized_score s) (normalized_score best)
                     = true) earlier.
Proof.
  intros Hasym Hneg E Hne. unfold predict_beam. rewrite E.
  destruct (sorted_desc normalized_score completed_states)
    as [|best rest] eqn:Es.
  - apply sorted_desc_nil_inv in Es. contradiction.
  - destruct (sorted_desc_head_first _ _ Es) as (l1 & l2 & Hsplit & Hl1).
    exists l1, best, l2. split; [exact Hsplit|]. split; [reflexivity|].
    split; [|exact Hl1].
    eapply sorted_desc_head_max; eassumption.
Qed.

(** Two candidates per state: the state completed in the first pass has a
    lower score than the one completed in the second, which is returned. *)
Lemma predict_beam_returns_best_witness :
  exists best : State Q nat,
    predict_beam a_then_eos 6 tt tt 3 2 50 = Some (Ok (prediction best)) /\
    prediction best = "a"%string.
Proof.
  assert (Hex : exists cs,
             outer_loop a_then_eos 6 3 2 [initial_state a_then_eos tt tt] []
             = Some (Ok cs) /\ cs <> []).
  { eexists. split; [vm_compute; reflexivity | discriminate]. }
  destruct Hex as (cs & E & Hne).
  destruct (@predict_beam_returns_best _ _ _ _ a_then_eos 6 tt tt 3 2 50
              cs Q_ltb_asym Q_ltb_negtrans E Hne)
    as (earlier & best & later & _ & Hret & _ & _).
  exists best. split; [exact Hret|].
  assert (Hv : predict_beam a_then_eos 6 tt tt 3 2 50
               = Some (Ok "a"%string)) by (vm_compute; reflexivity).
  rewrite Hv in Hret. now injection Hret as <-.
Defined.

(** X14.  A prediction that [predict_beam] returns has at most
    [surface_len + 1] characters, and none is returned unless
    [surface_len >= -1]. *)
Theorem predict_beam_result_below_bound
    {S : Type} `{ScoreArith S} {Vec Hidden : Type}
    (self : DecoderRNN S Vec Hidden) (fuel : nat)
    (word_embedding context_vector : Vec)
    (surface_len : Z) (beam_size max_len : nat) (p : string) :
  predict_beam self fuel word_embedding context_vector surface_len
    beam_size max_len = Some (Ok p) ->
  (Z.of_nat (String.length p) <= surface_len + 1)%Z /\
  (-1 <= surface_len)%Z.
Proof.
  intros E. apply predict_beam_result_open in E. lia.
Qed.

Lemma predict_beam_result_below_bound_witness :
  (Z.of_nat (String.length "a") <= 3 + 1)%Z /\ (-1 <= 3)%Z.
Proof.
  apply (@predict_beam_result_below_bound _ _ _ _ a_then_eos 2 tt tt 3 1 5).
  vm_compute. reflexivity.
Defined.

(* ================================================================= *)
(** ** EncoderRNN: counts, missing rows and special tokens *)

Section EncoderMore.
Variable Vec : Type.

Lemma align_loop_length (self : EncoderRNN Vec)
    (word_ids : list (option nat)) (last_hidden : list Vec)
    (ws : list nat) :
  forall acc res,
    align_loop self word_ids last_hidden ws acc = Ok res ->
    length acc <= length res <= length acc + length ws.
Proof.
  induction ws as [|w ws IH]; intros acc res; cbn [align_loop].
  - intros [= <-]. simpl. lia.
  - destruct (subword_indices word_ids w) as [|i ixs].
    + intros E. apply IH in E. simpl. lia.
    + intros E. bind_inv E. apply IH in E.
      rewrite length_app in E. simpl in E |- *. lia.
Qed.

Lemma index_rows_raises (last_hidden : list Vec) (ixs : list nat) (e : exn) :
  index_rows last_hidden ixs = Raise e -> e = IndexError.
Proof.
  induction ixs as [|i ixs IH]; simpl; [discriminate|].
  destruct (nth_error last_hidden i); [|now intros [= <-]].
  destruct (index_rows last_hidden ixs); simpl; [discriminate|].
  intros [= <-]. now apply IH.
Qed.

Lemma index_rows_missing (last_hidden : list Vec) (ixs : list nat) (i : nat) :
  In i ixs -> length last_hidden <= i ->
  index_rows last_hidden ixs = Raise IndexError.
Proof.
  intros Hin Hi. induction ixs as [|j ixs IH]; simpl; [contradiction|].
  destruct (nth_error last_hidden j) as [v|] eqn:Ej; [|reflexivity].
  destruct Hin as [->|Hin].
  - apply nth_error_None in Hi. congruence.
  - rewrite (IH Hin). reflexivity.
Qed.

Lemma align_loop_missing (self : EncoderRNN Vec)
    (word_ids : list (option nat)) (last_hidden : list Vec)
    (w i : nat) (ws : list nat) :
  In i (subword_indices word_ids w) -> length last_hidden <= i ->
  In w ws ->
  forall acc,
    align_loop self word_ids last_hidden ws acc = Raise IndexError.
Proof.
  intros Hi Hlen. induction ws as [|w0 ws IH]; intros Hw acc;
    [contradiction|].
  cbn [align_loop].
  destruct (subword_indices word_ids w0) as [|i0 ixs] eqn:E0.
  - destruct Hw as [->|Hw]; [rewrite E0 in Hi; contradiction|].
    now apply IH.
  - destruct (index_rows last_hidden (i0 :: ixs)) as [rows|e] eqn:Erows.
    + cbn [bind]. destruct Hw as [->|Hw]; [|now apply IH].
      rewrite E0 in Hi.
      rewrite (index_rows_missing _ _ Hi Hlen) in Erows. discriminate.
    + cbn [bind]. apply index_rows_raises in Erows. now subst.
Qed.

Lemma subword_indices_In (word_ids : list (option nat)) (w i : nat) :
  In i (subword_indices word_ids w) -> nth_error word_ids i = Some (Some w).
Proof.
  unfold subword_indices, enumerate. intros Hin.
  apply in_map_iff in Hin. destruct Hin as ([j a] & <- & Hin).
  apply filter_In in Hin. destruct Hin as (Hin & Hf). simpl in Hf |- *.
  apply enumerate_from_nth in Hin. destruct Hin as (_ & Hnth).
  rewrite Nat.sub_0_r in Hnth. rewrite Hnth.
  destruct a as [w'|]; [|discriminate].
  apply Nat.eqb_eq in Hf. now subst.
Qed.

Lemma index_rows_ext (lh1 lh2 : list Vec) (ixs : list nat) :
  (forall i, In i ixs -> nth_error lh1 i = nth_error lh2 i) ->
  index_rows lh1 ixs = index_rows lh2 ixs.
Proof.
  induction ixs as [|i ixs IH]; intros Hagree; simpl; [reflexivity|].
  rewrite (Hagree i (or_introl eq_refl)), IH; [reflexivity|].
  intros j Hj. apply Hagree. now right.
Qed.

Lemma align_loop_ext (self1 self2 : EncoderRNN Vec)
    (word_ids : list (option nat)) (lh1 lh2 : list Vec) (ws : list nat) :
  (forall rows, mean_rows self1 rows = mean_rows self2 rows) ->
  (forall w i, In w ws -> In i (subword_indices word_ids w) ->
               nth_error lh1 i = nth_error lh2 i) ->
  forall acc,
    align_loop self1 word_ids lh1 ws acc
    = align_loop self2 word_ids lh2 ws acc.
Proof.
  intros Hmean. induction ws as [|w ws IH]; intros Hagree acc;
    cbn [align_loop]; [reflexivity|].
  assert (Htail : forall w' i, In w' ws ->
                    In i (subword_indices word_ids w') ->
                    nth_error lh1 i = nth_error lh2 i).
  { intros w' i Hw'. apply Hagree. now right. }
  destruct (subword_indices word_ids w) as [|i0 ixs] eqn:E0;
    [now apply IH|].
  rewrite (index_rows_ext lh1 lh2 (i0 :: ixs)).
  - destruct (index_rows lh2 (i0 :: ixs)) as [rows|e]; [|reflexivity].
    cbn [bind]. rewrite Hmean. now apply IH.
  - intros i Hi. apply (Hagree w); [now left | now rewrite E0].
Qed.

End EncoderMore.

(** X15.  Whenever [forward] returns, it returns one word vector for every
    word of [x], at least one context vector and no more context vectors
    than the sentence has words; for an empty sentence it raises
    RuntimeError. *)
Theorem forward_counts
    {Vec : Type} (self : EncoderRNN Vec)
    (x : list (list nat)) (sentence_text : list string) :
  (forall word_embeddings context_embeddings,
      forward self x sentence_text
        = Ok (word_embeddings, context_embeddings) ->
      length word_embeddings = length x /\
      1 <= length context_embeddings <= length sentence_text) /\
  (sentence_text = [] -> forward self x sentence_text = Raise RuntimeError).
Proof.
  split.
  - unfold forward. intros we ce E. bind_inv E. bind_inv E.
    injection E as <- <-. rewrite !length_map.
    apply align_loop_length in Ha. rewrite length_seq in Ha. simpl in Ha.
    unfold torch_stack in Ha0. destruct a as [|v a]; [discriminate|].
    injection Ha0 as <-. simpl in Ha |- *. lia.
  - intros ->. reflexivity.
Qed.

(** X16.  When a subword aligned to a word of the sentence has no row in
    the contextual model's output, [forward] raises IndexError. *)
Theorem forward_missing_row
    {Vec : Type} (self : EncoderRNN Vec)
    (x : list (list nat)) (sentence_text : list string) (w i : nat) :
  w < length sentence_text ->
  In i (subword_indices (xlmr_word_ids self sentence_text) w) ->
  length (xlmr_last_hidden self sentence_text) <= i ->
  forward self x sentence_text = Raise IndexError.
Proof.
  intros Hw Hi Hlen. unfold forward.
  erewrite align_loop_missing; [reflexivity | exact Hi | exact Hlen |].
  apply in_seq. lia.
Qed.

Lemma forward_missing_row_witness :
  forward (toy_encoder [None; Some 0; Some 1; None] [10; 20]%Z)
          [[1; 2]; [3; 4]] ["ab"; "cd"]%string
  = Raise IndexError.
Proof.
  apply (@forward_missing_row _
           (toy_encoder [None; Some 0; Some 1; None] [10; 20]%Z)
           [[1; 2]; [3; 4]] ["ab"; "cd"]%string 1 2).
  - simpl. lia.
  - simpl. now left.
  - simpl. lia.
Defined.

(** X17.  The output of [forward] depends on the contextual model's rows
    only at the subwords aligned to words of the sentence: two model
    outputs that agree there give the same result, whatever they hold at
    special tokens and at subwords of word indices beyond the sentence. *)
Theorem forward_ignores_unaligned_rows
    {Vec : Type} (self : EncoderRNN Vec)
    (last_hidden1 last_hidden2 : list string -> list Vec)
    (x : list (list nat)) (sentence_text : list string) :
  (forall i w,
      nth_error (xlmr_word_ids self sentence_text) i = Some (Some w) ->
      w < length sentence_text ->
      nth_error (last_hidden1 sentence_text) i
      = nth_error (last_hidden2 sentence_text) i) ->
  forward (with_last_hidden self last_hidden1) x sentence_text
  = forward (with_last_hidden self last_hidden2) x sentence_text.
Proof.
  intros Hagree. unfold forward. cbn [with_last_hidden char_gru enc_dropout
    xlmr_word_ids xlmr_last_hidden context_proj].
  rewrite (align_loop_ext (with_last_hidden self last_hidden1)
             (with_last_hidden self last_hidden2)
             (xlmr_word_ids self sentence_text)
             (last_hidden1 sentence_text) (last_hidden2 sentence_text)
             (seq 0 (length sentence_text))); [reflexivity | reflexivity |].
  intros w i Hw Hi. apply in_seq in Hw.
  apply subword_indices_In in Hi. apply (Hagree i w Hi). lia.
Qed.

Lemma forward_ignores_unaligned_rows_witness :
  forward (with_last_hidden
             (toy_encoder [None; Some 0; Some 1; Some 2; None] [])
             (fun _ => [1; 20; 30; 4; 5]%Z))
          [[1; 2]; [3; 4]] ["ab"; "cd"]%string
  = forward (with_last_hidden
               (toy_encoder [None; Some 0; Some 1; Some 2; None] [])
               (fun _ => [7; 20; 30; 8; 9]%Z))
            [[1; 2]; [3; 4]] ["ab"; "cd"]%string.
Proof.
  apply forward_ignores_unaligned_rows.
  intros i w Hi Hw. simpl in Hi, Hw.
  do 5 (destruct i as [|i];
        [simpl in Hi; try discriminate;
         try (injection Hi as <-; try reflexivity; lia)|]).
  destruct i; discriminate.
Defined.

(* ================================================================= *)
(** ** TransformerRNN: label sequences and unknown labels *)

Section MapResult.
Context {A B : Type}.
Variable f : A -> result B.

Lemma map_result_Forall2 (l : list A) :
  forall r, map_result f l = Ok r -> Forall2 (fun a b => f a = Ok b) l r.
Proof.
  induction l as [|a l IH]; intros r; simpl.
  - intros [= <-]. constructor.
  - intros E. bind_inv E. bind_inv E. injection E as <-.
    constructor; [exact Ha | now apply IH].
Qed.

Lemma map_result_raises_only (P : exn -> Prop) (l : list A) :
  (forall a e, In a l -> f a = Raise e -> P e) ->
  forall e, map_result f l = Raise e -> P e.
Proof.
  induction l as [|a l IH]; intros Hf e; simpl; [discriminate|].
  destruct (f a) as [b|e0] eqn:Ea; simpl.
  - destruct (map_result f l) as [bs|e1] eqn:El; simpl; [discriminate|].
    intros [= <-]. apply IH; [|reflexivity].
    intros a' e' Hin. apply Hf. now right.
  - intros [= <-]. apply (Hf a); [now left | exact Ea].
Qed.

Lemma map_result_fails (l : list A) (a : A) (e : exn) :
  In a l -> f a = Raise e -> exists e', map_result f l = Raise e'.
Proof.
  intros Hin Ha. induction l as [|a0 l IH]; simpl; [contradiction|].
  destruct (f a0) as [b|e0] eqn:E0; simpl; [|eauto].
  destruct Hin as [->|Hin]; [congruence|].
  destruct (IH Hin) as (e' & ->). simpl. eauto.
Qed.

End MapResult.

(** X18.  When [TransformerRNN.predict] returns, the scores it returns are
    the softmax of the network's outputs, and behind the lemmas stands one
    label name of the label vocabulary for every character position of
    every word: the label sequence of a word is as long as its row of
    positions. *)
Theorem t_predict_one_label_per_position
    {S : Type} `{ScoreArith S} {Vec : Type}
    (inverse_transformation : string -> list string -> result string)
    (self : TransformerRNN S Vec)
    (word_embeddings context_vectors : list Vec) (x : list (list nat))
    (surfaces : list string)
    (scores : list (list (list S))) (lemmas : list string) :
  t_predict inverse_transformation self word_embeddings context_vectors x
    surfaces = Ok (scores, lemmas) ->
  scores = t_scores self word_embeddings context_vectors x /\
  exists labels,
    predicted_labels self scores = Ok labels /\
    Forall2 (fun rows ls => length ls = length rows) scores labels /\
    Forall (Forall (fun l => exists ix, In (l, ix) (t_vocab self))) labels /\
    length lemmas = Nat.min (length surfaces) (length scores).
Proof.
  unfold t_predict. intros E. bind_inv E. rename a into labels.
  bind_inv E. injection E as <- <-. split; [reflexivity|].
  exists labels. split; [exact Ha|].
  apply reconstruct_all_nth in Ha0. destruct Ha0 as (Hlen & _).
  unfold predicted_labels in Ha. apply map_result_Forall2 in Ha.
  assert (Hshape : Forall2 (fun rows ls =>
                     length ls = length rows /\
                     Forall (fun l => exists ix, In (l, ix) (t_vocab self)) ls)
                     (t_scores self word_embeddings context_vectors x)
                     labels).
  { eapply Forall2_impl; [|exact Ha].
    intros rows ls Els. apply map_result_Forall2 in Els.
    split; [symmetry; eapply Forall2_length; exact Els|].
    clear -Els. induction Els as [|row l rows ls Hl _ IH]; constructor; auto.
    bind_inv Hl. exists a. unfold index2transformation in Hl.
    destruct (invert_vocab (t_vocab self) a) as [k|] eqn:Ek; [|discriminate].
    injection Hl as <-. now apply invert_vocab_Some. }
  split; [|split].
  - eapply Forall2_impl; [|exact Hshape]. now intros rows ls (Hl & _).
  - clear -Hshape. induction Hshape as [|rows ls ? ? (_ & Hl) _ IH];
      constructor; auto.
  - rewrite Hlen. f_equal. symmetry. eapply Forall2_length. exact Hshape.
Qed.

Lemma t_predict_one_label_per_position_witness :
  exists labels,
    predicted_labels
      (toy_transformer [[qs [1; 0]; qs [0; 1]; qs [1; 0]]%Z])
      (t_scores (toy_transformer [[qs [1; 0]; qs [0; 1]; qs [1; 0]]%Z])
                [tt] [tt] [[1; 2; 0]])
    = Ok labels /\
    length labels = 1.
Proof.
  assert (Hex : exists sc,
             t_predict toy_inverse
               (toy_transformer [[qs [1; 0]; qs [0; 1]; qs [1; 0]]%Z])
               [tt] [tt] [[1; 2; 0]] ["ab"%string]
             = Ok (sc, ["a"%string])).
  { eexists. vm_compute. reflexivity. }
  destruct Hex as (sc & E0).
  destruct (@t_predict_one_label_per_position _ _ _ toy_inverse
              (toy_transformer [[qs [1; 0]; qs [0; 1]; qs [1; 0]]%Z])
              [tt] [tt] [[1; 2; 0]] ["ab"%string] sc ["a"%string] E0)
    as (Hsc & labels & E & Hshape & _ & _).
  exists labels. rewrite <- Hsc. split; [exact E|].
  apply Forall2_length in Hshape. rewrite <- Hshape, Hsc. reflexivity.
Defined.

(** X19.  When the arg-max label index at some position of some word is
    not in the label vocabulary (all rows being non-empty),
    [TransformerRNN.predict] raises KeyError, whatever the surface words:
    also when the position lies beyond the end of its surface word, where
    the reconstruction would not have read the label. *)
Theorem t_predict_unknown_label
    {S : Type} `{ScoreArith S} {Vec : Type}
    (inverse_transformation : string -> list string -> result string)
    (self : TransformerRNN S Vec)
    (word_embeddings context_vectors : list Vec) (x : list (list nat))
    (surfaces : list string)
    (rows : list (list S)) (row : list S) (ix : nat) :
  Forall (Forall (fun r => r <> []))
         (t_scores self word_embeddings context_vectors x) ->
  In rows (t_scores self word_embeddings context_vectors x) ->
  In row rows ->
  argmax row = Ok ix ->
  (forall k, ~ In (k, ix) (t_vocab self)) ->
  t_predict inverse_transformation self word_embeddings context_vectors x
    surfaces = Raise KeyError.
Proof.
  intros Hne Hrows Hrow Harg Hno. unfold t_predict.
  set (label := fun r : list S =>
                  let* i := argmax r in index2transformation self i).
  assert (Hlabel : label row = Raise KeyError).
  { unfold label. rewrite Harg. cbn [bind]. unfold index2transformation.
    apply invert_vocab_None in Hno. now rewrite Hno. }
  assert (Honly : forall r e, r <> [] -> label r = Raise e -> e = KeyError).
  { intros r e Hr. unfold label.
    destruct (argmax_succeeds Hr) as (i & ->). cbn [bind].
    unfold index2transformation.
    destruct (invert_vocab (t_vocab self) i); [discriminate|].
    now intros [= <-]. }
  assert (Hinner : map_result label rows = Raise KeyError).
  { destruct (map_result_fails label rows row Hrow Hlabel) as (e & E).
    rewrite E. f_equal.
    apply (map_result_raises_only label (fun e => e = KeyError) rows)
      with (e := e); [|exact E].
    intros r e0 Hr. apply Honly.
    rewrite Forall_forall in Hne. specialize (Hne _ Hrows).
    rewrite Forall_forall in Hne. now apply Hne. }
  assert (Houter : predicted_labels self
                     (t_scores self word_embeddings context_vectors x)
                   = Raise KeyError).
  { unfold predicted_labels. fold label.
    destruct (map_result_fails (map_result label) _ rows Hrows Hinner)
      as (e & E).
    rewrite E. f_equal.
    apply (map_result_raises_only (map_result label)
             (fun e => e = KeyError)
             (t_scores self word_embeddings context_vectors x))
      with (e := e); [|exact E].
    intros rs e0 Hrs.
    apply (map_result_raises_only label (fun e => e = KeyError) rs).
    intros r e1 Hr. apply Honly.
    rewrite Forall_forall in Hne. specialize (Hne _ Hrs).
    rewrite Forall_forall in Hne. now apply Hne. }
  rewrite Houter. reflexivity.
Qed.

(** The word ["ab"] padded to three positions; at the padding position the
    network ranks a third class first, which has no name. *)
Lemma t_predict_unknown_label_witness :
  t_predict toy_inverse
    (toy_transformer [[qs [1; 0; 0]; qs [0; 1; 0]; qs [0; 0; 1]]%Z])
    [tt] [tt] [[1; 2; 0]] ["ab"%string]
  = Raise KeyError.
Proof.
  apply (@t_predict_unknown_label _ _ _ toy_inverse
           (toy_transformer [[qs [1; 0; 0]; qs [0; 1; 0]; qs [0; 0; 1]]%Z])
           [tt] [tt] [[1; 2; 0]] ["ab"%string]
           (map softmax2 [qs [1; 0; 0]; qs [0; 1; 0]; qs [0; 0; 1]]%Z)
           (softmax2 (qs [0; 0; 1]%Z)) 2).
  - repeat constructor; discriminate.
  - now left.
  - simpl. auto.
  - vm_compute. reflexivity.
  - intros k [[= ]|[[= ]|[]]].
Defined.

(* ================================================================= *)
(** ** Greedy decoding under a smaller [max_len] *)

Section GreedyPrefix.
Context {S : Type} `{ScoreArith S} {Vec Hidden : Type}.
Variable self : DecoderRNN S Vec Hidden.

Lemma predict_loop_prefix (n : nat) :
  forall m tok h rows preds rows1 preds1 rows2 preds2,
    n <= m ->
    predict_loop self n tok h rows preds = Ok (rows1, preds1) ->
    predict_loop self m tok h rows preds = Ok (rows2, preds2) ->
    exists er ep, rows2 = rows1 ++ er /\ preds2 = preds1 ++ ep.
Proof.
  induction n as [|n IH];
    intros m tok h rows preds rows1 preds1 rows2 preds2 Hle E1 E2.
  - simpl in E1. injection E1 as <- <-.
    destruct (predict_loop_extends _ _ _ _ _ _ E2) as (er & ep & -> & -> & _).
    eauto.
  - destruct m as [|m]; [lia|]. simpl in E1, E2.
    destruct (decoder_step self tok h) as [output h'].
    destruct (topk 1 output) as [top|e]; [|discriminate].
    cbn [bind] in E1, E2. destruct top as [|[topi v] rest]; [discriminate|].
    destruct (topi =? 1).
    + injection E1 as <- <-. injection E2 as <- <-.
      exists [], []. now rewrite !app_nil_r.
    + destruct (2 <? topi).
      * destruct (index2token self topi) as [name|e]; [|discriminate].
        cbn [bind] in E1, E2. eapply IH; [|exact E1|exact E2]. lia.
      * eapply IH; [|exact E1|exact E2]. lia.
Qed.

End GreedyPrefix.

(** X20.  Greedy decoding under a smaller [max_len] returns a prefix of
    what it returns under a larger one, rows of scores and predictions
    alike. *)
Theorem predict_prefix_in_max_len
    {S : Type} `{ScoreArith S} {Vec Hidden : Type}
    (self : DecoderRNN S Vec Hidden) (word_embedding context_vector : Vec)
    (max_len max_len' : nat)
    (rows rows' : list (list S)) (predictions predictions' : list string) :
  max_len <= max_len' ->
  predict self word_embedding context_vector max_len
    = Ok (rows, predictions) ->
  predict self word_embedding context_vector max_len'
    = Ok (rows', predictions') ->
  exists more_rows more_predictions,
    rows' = rows ++ more_rows /\
    predictions' = predictions ++ more_predictions.
Proof.
  unfold predict. intros Hle E1 E2.
  eapply predict_loop_prefix; eassumption.
Qed.

Lemma predict_prefix_in_max_len_witness :
  exists more_rows more_predictions,
    [qs [0; 0; 0; 2; 0]%Z; qs [0; 0; 0; 2; 0]%Z; qs [0; 0; 0; 2; 0]%Z]
    = [qs [0; 0; 0; 2; 0]%Z] ++ more_rows /\
    ["a"; "a"; "a"]%string = ["a"%string] ++ more_predictions.
Proof.
  apply (@predict_prefix_in_max_len _ _ _ _ always_a tt tt 1 3); try lia;
    reflexivity.
Defined.

(* ================================================================= *)
(** ** Beam search: the completed set and the order of the beam *)

(** X21.  The completed set only grows at its end: the states completed
    after [k] passes are still there, in the same order and in front, after
    any further passes. *)
Theorem generation_completed_prefix
    {S : Type} `{ScoreArith S} {Vec Hidden : Type}
    (self : DecoderRNN S Vec Hidden) (word_embedding context_vector : Vec)
    (surface_len : Z) (beam_size : nat) (k m : nat)
    (states states' completed_states completed_states'
     : list (State S Hidden)) :
  generation self k word_embedding context_vector surface_len beam_size
    = Ok (states, completed_states) ->
  generation self (m + k) word_embedding context_vector surface_len
    beam_size = Ok (states', completed_states') ->
  exists added, completed_states' = completed_states ++ added.
Proof.
  intros Ek. revert states' completed_states'.
  induction m as [|m IH]; intros states' cs'; cbn [Nat.add generation].
  - rewrite Ek. intros [= <- <-]. exists []. now rewrite app_nil_r.
  - intros E. bind_inv E. destruct a as [states0 cs0].
    destruct (IH _ _ Ha) as (added & ->).
    apply outer_body_children in E.
    destruct E as (_ & _ & ca & -> & _ & _).
    exists (added ++ ca). now rewrite app_assoc.
Qed.

Lemma generation_completed_prefix_witness :
  exists (st s : State Q nat) (added : list (State Q nat)),
    generation a_then_eos 1 tt tt 3 2 = Ok ([st], [s]) /\
    exists states' cs',
      generation a_then_eos 2 tt tt 3 2 = Ok (states', cs') /\
      cs' = [s] ++ added.
Proof.
  assert (E1 : exists st s, generation a_then_eos 1 tt tt 3 2
                            = Ok ([st], [s])).
  { eexists. eexists. vm_compute. reflexivity. }
  assert (E2 : exists states' cs', generation a_then_eos (1 + 1) tt tt 3 2
                                   = Ok (states', cs')).
  { eexists. eexists. vm_compute. reflexivity. }
  destruct E1 as (st & s & E1). destruct E2 as (states' & cs' & E2).
  destruct (generation_completed_prefix a_then_eos tt tt 3 2 1 1 E1 E2)
    as (added & Hadd).
  exists st, s, added. split; [exact E1|].
  exists states', cs'. split; [exact E2 | exact Hadd].
Defined.

Section SortedBeam.
Context {S : Type} `{ScoreArith S} {A : Type}.
Variable key : A -> S.

Hypothesis ltb_asym :
  forall a b : S, s_ltb a b = true -> s_ltb b a = false.
Hypothesis ltb_negtrans :
  forall a b c : S,
    s_ltb a b = false -> s_ltb b c = false -> s_ltb a c = false.

(** [a] may stand before [b]: the key of [a] is not below the key of [b]. *)
Let not_below (a b : A) : Prop := s_ltb (key a) (key b) = false.

Lemma insert_desc_sorted (x : A) (l : list A) :
  StronglySorted not_below l ->
  StronglySorted not_below (insert_desc key x l).
Proof.
  induction 1 as [|y l Hl IH Hy]; simpl.
  - constructor; constructor.
  - destruct (s_ltb (key x) (key y)) eqn:Exy.
    + constructor; [exact IH|].
      apply Forall_forall. intros z Hz. apply insert_desc_In in Hz.
      destruct Hz as [->|Hz].
      * now apply ltb_asym.
      * rewrite Forall_forall in Hy. now apply Hy.
    + constructor; [constructor; assumption|].
      constructor; [exact Exy|].
      eapply Forall_impl; [|exact Hy].
      intros z Hyz. exact (ltb_negtrans _ _ _ Exy Hyz).
Qed.

Lemma sorted_desc_sorted (l : list A) :
  StronglySorted not_below (sorted_desc key l).
Proof.
  induction l as [|x l IH]; simpl; [constructor|].
  now apply insert_desc_sorted.
Qed.

Lemma firstn_sorted (R : A -> A -> Prop) (n : nat) (l : list A) :
  StronglySorted R l -> StronglySorted R (firstn n l).
Proof.
  intros Hl. revert n. induction Hl as [|y l Hl IH Hy]; intros [|n]; simpl;
    try constructor; auto.
  now apply Forall_firstn.
Qed.

End SortedBeam.

(** X22.  When the comparison of scores is a strict weak order, the active
    beam is in descending order of normalized score after every pass: no
    state stands before a state of higher normalized score. *)
Theorem generation_beam_sorted
    {S : Type} `{ScoreArith S} {Vec Hidden : Type}
    (self : DecoderRNN S Vec Hidden) (word_embedding context_vector : Vec)
    (surface_len : Z) (beam_size : nat) (k : nat)
    (states completed_states : list (State S Hidden)) :
  (forall a b : S, s_ltb a b = true -> s_ltb b a = false) ->
  (forall a b c : S,
      s_ltb a b = false -> s_ltb b c = false -> s_ltb a c = false) ->
  generation self (Datatypes.S k) word_embedding context_vector surface_len
    beam_size = Ok (states, completed_states) ->
  StronglySorted
    (fun a b => s_ltb (normalized_score a) (normalized_score b) = false)
    states.
Proof.
  intros Hasym Hneg. cbn [generation]. intros E. bind_inv E.
  destruct a as [states0 cs0]. unfold outer_body in E. bind_inv E.
  destruct a as [ns cs1]. injection E as <- <-.
  apply firstn_sorted. now apply sorted_desc_sorted.
Qed.

Lemma generation_beam_sorted_witness :
  exists (s1 s2 : State Q nat),
    s_ltb (normalized_score s1) (normalized_score s2) = false /\
    prediction s1 = "aa"%string.
Proof.
  assert (E : exists s1 s2 cs,
             generation always_a 2 tt tt 3 2 = Ok ([s1; s2], cs) /\
             prediction s1 = "aa"%string).
  { do 3 eexists. split; [vm_compute; reflexivity | reflexivity]. }
  destruct E as (s1 & s2 & cs & E & Hp).
  pose proof (@generation_beam_sorted _ _ _ _ always_a tt tt 3 2 1 _ _
                Q_ltb_asym Q_ltb_negtrans E) as Hs.
  exists s1, s2. split; [|exact Hp].
  inversion Hs as [|? ? _ Hall]; subst.
  inversion Hall; subst. assumption.
Defined.
